(** * Controller2D: the CARLA waypoint-follower controller

    A shallow embedding of [Course1FinalProject/controller2d.py].

    Python's [float] is IEEE 754 binary64, which is what Rocq's primitive
    [float] is: [+], [-], [*], [/], [sqrt], [abs] and the comparisons below are
    the very operations the interpreter performs, NaN and infinities included.
    The integer literals that the source mixes into float arithmetic ([0],
    [1], [2], [3], [5]) are exactly representable and are written as floats.
    The step counter is a Python [int] and is modelled in [Z].

    Two operations of the source are not among the primitive ones: the
    true division of two Python ints, and the fused multiply-add inside the
    dot product of [np.linalg.norm].  Both are written on [spec_float], the
    bit-level description of binary64 that the primitive operations are
    specified by. *)

From Stdlib Require Import Floats ZArith List Bool Lia.
From Stdlib Require QArith.
Import ListNotations.

Set Warnings "-inexact-float".
Local Open Scope float_scope.

(** ** Python values and exceptions *)

Inductive exn : Type :=
| IndexError
| AttributeError
| OverflowError
| ZeroDivisionError.

Inductive result (A : Type) : Type :=
| Success (a : A)
| Failure (e : exn).
Arguments Success {A} a.
Arguments Failure {A} e.

(** [l[i]] on a Python list: a negative index counts from the end. *)
Definition py_getitem {A : Type} (l : list A) (i : Z) : result A :=
  let n := Z.of_nat (length l) in
  let j := if (i <? 0)%Z then (i + n)%Z else i in
  if ((0 <=? j)%Z && (j <? n)%Z)%bool then
    match nth_error l (Z.to_nat j) with
    | Some a => Success a
    | None => Failure IndexError
    end
  else Failure IndexError.

(** A Python int as an unrounded binary float: the exact operand of a
    true division. *)
Definition Z2SF (a : Z) : spec_float :=
  match a with
  | Z0 => S754_zero false
  | Z.pos p => S754_finite false p 0
  | Z.neg p => S754_finite true p 0
  end.

(** [int(f)] on a float: truncation toward zero; there is no integer for
    an infinity or a NaN. *)
Definition SFtrunc (f : spec_float) : option Z :=
  match f with
  | S754_zero _ => Some 0%Z
  | S754_finite s m e =>
      let mag := if (e <? 0)%Z then Z.shiftr (Z.pos m) (- e) else Z.shiftl (Z.pos m) e in
      Some (if s then (- mag)%Z else mag)
  | S754_infinity _ | S754_nan => None
  end.

(** [int(a / b)] for Python ints [a] and [b]: the quotient rounded once to
    binary64 (nearest, ties to even), then truncated toward zero.  The
    division raises [ZeroDivisionError] for [b = 0] and [OverflowError]
    ("integer division result too large for a float") when the rounded
    quotient is not finite. *)
Definition int_truediv (a b : Z) : result Z :=
  if (b =? 0)%Z then Failure ZeroDivisionError
  else match SFtrunc (SFdiv prec emax (Z2SF a) (Z2SF b)) with
       | Some q => Success q
       | None => Failure OverflowError
       end.

(** The same pipeline on primitive floats, for the cross-check
    [int_truediv_binary64]. *)
Definition float_of_int (a : Z) : float :=
  if (a <? 0)%Z then - of_uint63 (Uint63.of_Z (- a)) else of_uint63 (Uint63.of_Z a).

Definition int_of_float (f : float) : option Z := SFtrunc (Prim2SF f).

(** ** NumPy scalar operations *)

Definition np_pi : float := 3.141592653589793.
Definition float_inf : float := infinity.

(** [np.fmin] and [np.fmax]: the element-wise loops
    [(in1 <= in2 || isnan(in2)) ? in1 : in2] and
    [(in1 >= in2 || isnan(in2)) ? in1 : in2]. *)
Definition np_fmin (in1 in2 : float) : float :=
  if ((in1 <=? in2) || is_nan in2)%bool then in1 else in2.

Definition np_fmax (in1 in2 : float) : float :=
  if ((in2 <=? in1) || is_nan in2)%bool then in1 else in2.

Definition np_abs (x : float) : float := abs x.

(** The exact product of two floats, not yet rounded. *)
Definition SFmul_exact (x y : spec_float) : spec_float :=
  match x, y with
  | S754_nan, _ | _, S754_nan => S754_nan
  | S754_infinity sx, S754_infinity sy => S754_infinity (xorb sx sy)
  | S754_infinity sx, S754_finite sy _ _ => S754_infinity (xorb sx sy)
  | S754_finite sx _ _, S754_infinity sy => S754_infinity (xorb sx sy)
  | S754_infinity _, S754_zero _ => S754_nan
  | S754_zero _, S754_infinity _ => S754_nan
  | S754_finite sx _ _, S754_zero sy => S754_zero (xorb sx sy)
  | S754_zero sx, S754_finite sy _ _ => S754_zero (xorb sx sy)
  | S754_zero sx, S754_zero sy => S754_zero (xorb sx sy)
  | S754_finite sx mx ex, S754_finite sy my ey =>
      S754_finite (xorb sx sy) (mx * my) (ex + ey)
  end.

(** Fused multiply-add: [x * y + z] with a single rounding. *)
Definition SFfma (x y z : spec_float) : spec_float :=
  match SFmul_exact x y, z with
  | S754_finite _ _ _, S754_zero _ => SFmul prec emax x y
  | p, _ => SFadd prec emax p z
  end.

Definition fma (x y z : float) : float :=
  SF2Prim (SFfma (Prim2SF x) (Prim2SF y) (Prim2SF z)).

(** [np.linalg.norm(np.array([a, b]))]: the square root of the dot product
    of the vector with itself.  The dot product is the BLAS kernel's loop
    [dot += x[i] * x[i]] from [dot = 0.0], which the x86-64 builds compile
    to fused multiply-adds: the first square is rounded, the second one is
    added to it before the only other rounding. *)
Definition np_linalg_norm (a b : float) : float := sqrt (fma b b (a * a)).

(** The C library functions reached through [np.sin], [np.cos],
    [np.arctan] and [math.atan2].  They are not part of the repository;
    the controller is parametrised by them. *)
Record MathLib : Type := {
  np_sin : float -> float;
  np_cos : float -> float;
  np_arctan : float -> float;
  math_atan2 : float -> float -> float
}.

(** ** Data model *)

(** A waypoint [[x, y, v]]. *)
Record waypoint : Type := Waypoint {
  wp_x : float;
  wp_y : float;
  wp_v : float
}.

(** Modelled from the spec: [cutils.CUtils], the holder of the persistent
    variables, is not among the sources.  The spec describes creation as
    create-if-absent that never resets an existing value; an attribute is
    absent ([None]) until created.  The three attributes are the ones
    [update_controls] declares. *)
Record CUtils : Type := {
  v_previous : option float;
  v_diff_previous : option float;
  step : option Z
}.

Definition CUtils_new : CUtils :=
  {| v_previous := None; v_diff_previous := None; step := None |}.

(** Modelled from the spec: [CUtils.create_var(name, value)] on one
    attribute slot. *)
Definition create_var {A : Type} (slot : option A) (value : A) : option A :=
  match slot with
  | Some _ => slot
  | None => Some value
  end.

(** Reading an attribute of [self.vars]. *)
Definition getattr {A : Type} (slot : option A) : result A :=
  match slot with
  | Some a => Success a
  | None => Failure AttributeError
  end.

Record Controller2D : Type := {
  vars : CUtils;
  _current_x : float;
  _current_y : float;
  _current_yaw : float;
  _current_speed : float;
  _desired_speed : float;
  _current_frame : Z;
  _current_timestamp : float;
  _start_control_loop : bool;
  _set_throttle : float;
  _set_brake : float;
  _set_steer : float;
  _waypoints : list waypoint
}.

(** [self._conv_rad_to_steer], [self._pi] and [self._2pi] are assigned in
    [__init__] and never again; they are constants of the model. *)
Definition _conv_rad_to_steer : float := 180.0 / 70.0 / np_pi.
Definition _pi : float := np_pi.
Definition _2pi : float := 2.0 * np_pi.

(** The state a method call leaves behind: a normal return, or an exception
    together with the object as mutated up to the [raise]. *)
Inductive outcome : Type :=
| Ok (c : Controller2D)
| Raise (e : exn) (c : Controller2D).

Definition state_after (o : outcome) : Controller2D :=
  match o with
  | Ok c => c
  | Raise _ c => c
  end.

Definition bind (o : outcome) (k : Controller2D -> outcome) : outcome :=
  match o with
  | Ok c => k c
  | Raise e c => Raise e c
  end.

(** An expression that may raise while the object is in state [c]. *)
Definition try_in {A : Type} (c : Controller2D) (r : result A) (k : A -> outcome) : outcome :=
  match r with
  | Success a => k a
  | Failure e => Raise e c
  end.

Notation "c' <- o ;; k" := (bind o (fun c' => k))
  (at level 61, o at next level, right associativity).
Notation "x <-[ c ] r ;; k" := (try_in c r (fun x => k))
  (at level 61, r at next level, right associativity).

(** Attribute assignments. *)
Definition assign_vars (c : Controller2D) (u : CUtils) : Controller2D :=
  {| vars := u;
     _current_x := _current_x c; _current_y := _current_y c;
     _current_yaw := _current_yaw c; _current_speed := _current_speed c;
     _desired_speed := _desired_speed c; _current_frame := _current_frame c;
     _current_timestamp := _current_timestamp c;
     _start_control_loop := _start_control_loop c;
     _set_throttle := _set_throttle c; _set_brake := _set_brake c;
     _set_steer := _set_steer c; _waypoints := _waypoints c |}.

Definition assign_desired_speed (c : Controller2D) (s : float) : Controller2D :=
  {| vars := vars c;
     _current_x := _current_x c; _current_y := _current_y c;
     _current_yaw := _current_yaw c; _current_speed := _current_speed c;
     _desired_speed := s; _current_frame := _current_frame c;
     _current_timestamp := _current_timestamp c;
     _start_control_loop := _start_control_loop c;
     _set_throttle := _set_throttle c; _set_brake := _set_brake c;
     _set_steer := _set_steer c; _waypoints := _waypoints c |}.

Definition assign_throttle (c : Controller2D) (s : float) : Controller2D :=
  {| vars := vars c;
     _current_x := _current_x c; _current_y := _current_y c;
     _current_yaw := _current_yaw c; _current_speed := _current_speed c;
     _desired_speed := _desired_speed c; _current_frame := _current_frame c;
     _current_timestamp := _current_timestamp c;
     _start_control_loop := _start_control_loop c;
     _set_throttle := s; _set_brake := _set_brake c;
     _set_steer := _set_steer c; _waypoints := _waypoints c |}.

Definition assign_brake (c : Controller2D) (s : float) : Controller2D :=
  {| vars := vars c;
     _current_x := _current_x c; _current_y := _current_y c;
     _current_yaw := _current_yaw c; _current_speed := _current_speed c;
     _desired_speed := _desired_speed c; _current_frame := _current_frame c;
     _current_timestamp := _current_timestamp c;
     _start_control_loop := _start_control_loop c;
     _set_throttle := _set_throttle c; _set_brake := s;
     _set_steer := _set_steer c; _waypoints := _waypoints c |}.

Definition assign_steer (c : Controller2D) (s : float) : Controller2D :=
  {| vars := vars c;
     _current_x := _current_x c; _current_y := _current_y c;
     _current_yaw := _current_yaw c; _current_speed := _current_speed c;
     _desired_speed := _desired_speed c; _current_frame := _current_frame c;
     _current_timestamp := _current_timestamp c;
     _start_control_loop := _start_control_loop c;
     _set_throttle := _set_throttle c; _set_brake := _set_brake c;
     _set_steer := s; _waypoints := _waypoints c |}.

(** ** The methods of [Controller2D] *)

(** [__init__(self, waypoints)]. *)
Definition init (waypoints : list waypoint) : Controller2D :=
  {| vars := CUtils_new;
     _current_x := 0; _current_y := 0; _current_yaw := 0;
     _current_speed := 0; _desired_speed := 0;
     _current_frame := 0%Z; _current_timestamp := 0;
     _start_control_loop := false;
     _set_throttle := 0; _set_brake := 0; _set_steer := 0;
     _waypoints := waypoints |}.

(** [update_values]: [if self._current_frame:] is true for a non-zero int. *)
Definition update_values (c : Controller2D)
  (x y yaw speed timestamp : float) (frame : Z) : Controller2D :=
  {| vars := vars c;
     _current_x := x; _current_y := y; _current_yaw := yaw;
     _current_speed := speed; _desired_speed := _desired_speed c;
     _current_frame := frame; _current_timestamp := timestamp;
     _start_control_loop :=
       if (frame =? 0)%Z then _start_control_loop c else true;
     _set_throttle := _set_throttle c; _set_brake := _set_brake c;
     _set_steer := _set_steer c; _waypoints := _waypoints c |}.

(** The distance [update_desired_speed] computes for waypoint [w]. *)
Definition waypoint_dist (x y : float) (w : waypoint) : float :=
  np_linalg_norm (wp_x w - x) (wp_y w - y).

(** The loop of [update_desired_speed] from index [i] on, over the
    waypoints not yet visited; it returns the final [(min_idx, min_dist)]. *)
Fixpoint nearest_scan (x y : float) (rest : list waypoint) (i : Z)
  (min_idx : Z) (min_dist : float) : Z * float :=
  match rest with
  | [] => (min_idx, min_dist)
  | w :: rest' =>
      let dist := waypoint_dist x y w in
      if dist <? min_dist
      then nearest_scan x y rest' (i + 1)%Z i dist
      else nearest_scan x y rest' (i + 1)%Z min_idx min_dist
  end.

Definition update_desired_speed (c : Controller2D) : outcome :=
  let waypoints := _waypoints c in
  let '(min_idx, _) :=
    nearest_scan (_current_x c) (_current_y c) waypoints 0%Z 0%Z float_inf in
  w <-[ c ] (if (min_idx <? Z.of_nat (length waypoints) - 1)%Z
             then py_getitem waypoints min_idx
             else py_getitem waypoints (-1)%Z) ;;
  Ok (assign_desired_speed c (wp_v w)).

Definition update_waypoints (c : Controller2D) (new_waypoints : list waypoint)
  : Controller2D :=
  {| vars := vars c;
     _current_x := _current_x c; _current_y := _current_y c;
     _current_yaw := _current_yaw c; _current_speed := _current_speed c;
     _desired_speed := _desired_speed c; _current_frame := _current_frame c;
     _current_timestamp := _current_timestamp c;
     _start_control_loop := _start_control_loop c;
     _set_throttle := _set_throttle c; _set_brake := _set_brake c;
     _set_steer := _set_steer c; _waypoints := new_waypoints |}.

Definition get_commands (c : Controller2D) : float * float * float :=
  (_set_throttle c, _set_steer c, _set_brake c).

Definition set_throttle (c : Controller2D) (input_throttle : float) : Controller2D :=
  let throttle := np_fmax (np_fmin input_throttle 1.0) 0.0 in
  assign_throttle c throttle.

Definition set_steer (c : Controller2D) (input_steer_in_rad : float) : Controller2D :=
  let input_steer := _conv_rad_to_steer * input_steer_in_rad in
  let steer := np_fmax (np_fmin input_steer 1.0) (-1.0) in
  assign_steer c steer.

Definition set_brake (c : Controller2D) (input_brake : float) : Controller2D :=
  let brake := np_fmax (np_fmin input_brake 1.0) 0.0 in
  assign_brake c brake.

Section Controller.

Context (libm : MathLib).

(** The longitudinal block of [update_controls]: the value of
    [throttlePercent] after the two-sided [if]/[elif]. *)
Definition longitudinal_throttle (v v_desired vars_v_previous vars_v_diff_previous : float)
  : float :=
  let pGain := 0.6 in
  let iGain := 0.01 in
  let dGain := 1 in
  let feedForwardGain := 0.05 in
  let normalizeFactor := 16.25 / 2 / 5 in
  let throttle :=
    pGain * (v_desired - v) + dGain * (v - vars_v_previous)
    + iGain * vars_v_diff_previous in
  let throttlePercent := throttle / normalizeFactor in
  if 1.0 <? throttlePercent then 1.0
  else if throttlePercent <? 0.0 then 0.0
  else throttlePercent.

(** The waypoint the lateral block steers at:
    [waypoints[int(step / 3)]] or [waypoints[len(waypoints) - 1]]. *)
Definition lookahead_waypoint (waypoints : list waypoint) (vars_step : Z)
  : result waypoint :=
  match int_truediv vars_step 3 with
  | Failure e => Failure e
  | Success i =>
      if (i <? Z.of_nat (length waypoints) - 1)%Z
      then py_getitem waypoints i
      else py_getitem waypoints (Z.of_nat (length waypoints) - 1)%Z
  end.

(** The end of the lateral block: the [if]/[elif] that bounds
    [steer_angle] by 0.3 rad, then the dead band of 0.05 rad. *)
Definition steer_limit (steer_angle : float) : float :=
  let steer_angle :=
    if 0.3 <? steer_angle then 0.3
    else if steer_angle <? -0.3 then -0.3
    else steer_angle in
  let steer_angle := if np_abs steer_angle <? 0.05 then 0 else steer_angle in
  steer_angle.

(** The lateral block of [update_controls], from [processed_yaw] to the
    final [steer_angle].  [rearAxialX], [rearAxialY] and [ld] are computed
    by the source and feed nothing. *)
Definition lateral_steer_angle (x y yaw v_desired : float) (waypoint : waypoint)
  (vars_step : Z) : float :=
  let processed_yaw := - yaw - np_pi / 2 in
  let processed_yaw := if np_abs processed_yaw <? 0.05 then 0 else processed_yaw in
  let rearAxialX := x - np_cos libm processed_yaw * 1.5 in
  let rearAxialY := y - np_sin libm processed_yaw * 1.5 in
  let lookAheadX := wp_x waypoint in
  let lookAheadY := wp_y waypoint in
  let L := 3 in
  let kdd := 0.8 in
  let ld := np_linalg_norm (lookAheadX - rearAxialX) (lookAheadY - rearAxialY) in
  let alpha := math_atan2 libm (lookAheadX - x) (lookAheadY - y) - processed_yaw in
  let velocity := v_desired in
  let velocity := if velocity <? 10.0 then 10.0 else velocity in
  let steer_angle := np_arctan libm (2 * L * np_sin libm alpha / (kdd * velocity)) in
  let steer_angle := if (vars_step <? 100)%Z then 0 else steer_angle in
  steer_limit steer_angle.

Definition update_controls (c : Controller2D) : outcome :=
  let x := _current_x c in
  let y := _current_y c in
  let yaw := _current_yaw c in
  let v := _current_speed c in
  c <- update_desired_speed c ;;
  let v_desired := _desired_speed c in
  let t := _current_timestamp c in
  let waypoints := _waypoints c in
  let throttle_output := 0 in
  let steer_output := 0 in
  let brake_output := 0 in
  let c := assign_vars c
    {| v_previous := create_var (v_previous (vars c)) 0.0;
       v_diff_previous := create_var (v_diff_previous (vars c)) 0.0;
       step := create_var (step (vars c)) 0%Z |} in
  c <- (if _start_control_loop c then
          vars_v_previous <-[ c ] getattr (v_previous (vars c)) ;;
          vars_v_diff_previous <-[ c ] getattr (v_diff_previous (vars c)) ;;
          let throttle_output :=
            longitudinal_throttle v v_desired vars_v_previous vars_v_diff_previous in
          let brake_output := 0 in
          vars_step <-[ c ] getattr (step (vars c)) ;;
          waypoint <-[ c ] lookahead_waypoint waypoints vars_step ;;
          let steer_output := lateral_steer_angle x y yaw v_desired waypoint vars_step in
          let c := set_throttle c throttle_output in
          let c := set_steer c steer_output in
          let c := set_brake c brake_output in
          Ok c
        else Ok c) ;;
  let c := assign_vars c
    {| v_previous := Some v;
       v_diff_previous := v_diff_previous (vars c);
       step := step (vars c) |} in
  vars_v_diff_previous <-[ c ] getattr (v_diff_previous (vars c)) ;;
  let c := assign_vars c
    {| v_previous := v_previous (vars c);
       v_diff_previous := Some (v_desired - v + vars_v_diff_previous);
       step := step (vars c) |} in
  vars_step <-[ c ] getattr (step (vars c)) ;;
  Ok (assign_vars c
    {| v_previous := v_previous (vars c);
       v_diff_previous := v_diff_previous (vars c);
       step := Some (vars_step + 1)%Z |}).

(** ** The harness's view: sequences of method calls *)

Inductive method_call : Type :=
| Update_values (x y yaw speed timestamp : float) (frame : Z)
| Update_waypoints (new_waypoints : list waypoint)
| Update_controls
| Get_commands
| Set_throttle (input_throttle : float)
| Set_steer (input_steer_in_rad : float)
| Set_brake (input_brake : float).

Definition invoke (c : Controller2D) (m : method_call) : outcome :=
  match m with
  | Update_values x y yaw speed timestamp frame =>
      Ok (update_values c x y yaw speed timestamp frame)
  | Update_waypoints new_waypoints => Ok (update_waypoints c new_waypoints)
  | Update_controls => update_controls c
  | Get_commands => Ok c
  | Set_throttle input_throttle => Ok (set_throttle c input_throttle)
  | Set_steer input_steer_in_rad => Ok (set_steer c input_steer_in_rad)
  | Set_brake input_brake => Ok (set_brake c input_brake)
  end.

(** The object after a sequence of calls; a caller that catches an
    exception goes on with the object as the exception left it. *)
Fixpoint run (c : Controller2D) (ms : list method_call) : Controller2D :=
  match ms with
  | [] => c
  | m :: ms' => run (state_after (invoke c m)) ms'
  end.

(** What the [get_commands] calls of a sequence return, in order. *)
Fixpoint outputs (c : Controller2D) (ms : list method_call)
  : list (float * float * float) :=
  match ms with
  | [] => []
  | Get_commands :: ms' => get_commands c :: outputs c ms'
  | m :: ms' => outputs (state_after (invoke c m)) ms'
  end.

End Controller.

(** ** The pipeline in the words of the specification *)

(** "Clamp to [lo, hi]". *)
Definition clamp (lo hi x : float) : float :=
  if x <? lo then lo else if hi <? x then hi else x.

(** "If |x| < band, snap to 0". *)
Definition snap_to_zero (band x : float) : float :=
  if abs x <? band then 0 else x.

(** [max(a, b)] as Python evaluates it. *)
Definition py_max (a b : float) : float := if a <? b then b else a.

(** Section 4.3: [raw / normalization_divisor]. *)
Definition spec_throttle_fraction (v_d v previous_speed accumulated_speed_error : float)
  : float :=
  (0.6 * (v_d - v) + 1.0 * (v - previous_speed) + 0.01 * accumulated_speed_error)
  / (16.25 / 2 / 5).

(** Section 4.4, steps 1 and 3 to 7. *)
Definition spec_steer_angle (libm : MathLib) (x y yaw v_d x_L y_L : float) (step : Z)
  : float :=
  let processed_yaw := snap_to_zero 0.05 (- yaw - np_pi / 2) in
  let alpha := math_atan2 libm (x_L - x) (y_L - y) - processed_yaw in
  let velocity := py_max v_d 10.0 in
  let steer_angle := np_arctan libm (2 * 3.0 * np_sin libm alpha / (0.8 * velocity)) in
  let steer_angle := if (step <? 100)%Z then 0 else steer_angle in
  snap_to_zero 0.05 (clamp (-0.3) 0.3 steer_angle).

(** Section 4.5: radians to the normalised range, then the final clamp. *)
Definition spec_steer_command (rad : float) : float :=
  np_fmax (np_fmin (180 / 70 / np_pi * rad) 1) (-1).

(** The closed ranges of the three commands. *)
Definition in_range (lo hi x : float) : bool := (lo <=? x) && (x <=? hi).

Definition commands_in_range (c : Controller2D) : bool :=
  in_range 0 1 (_set_throttle c) && in_range (-1) 1 (_set_steer c)
  && in_range 0 1 (_set_brake c).

(** ** Polynomial stand-ins for the C library, to run the model *)

Definition poly_sin (x : float) : float :=
  let x2 := x * x in
  x * (1 - x2 / 6 * (1 - x2 / 20 * (1 - x2 / 42 * (1 - x2 / 72)))).

Definition poly_cos (x : float) : float :=
  let x2 := x * x in
  1 - x2 / 2 * (1 - x2 / 12 * (1 - x2 / 30 * (1 - x2 / 56))).

Definition poly_arctan (x : float) : float :=
  if abs x <=? 1 then x / (1 + 0.28125 * (x * x))
  else (if x <? 0 then - (np_pi / 2) else np_pi / 2) - x / (x * x + 0.28125).

Definition poly_atan2 (y x : float) : float :=
  if 0 <? x then poly_arctan (y / x)
  else if x <? 0 then
    (if y <? 0 then poly_arctan (y / x) - np_pi else poly_arctan (y / x) + np_pi)
  else if 0 <? y then np_pi / 2
  else if y <? 0 then - (np_pi / 2)
  else 0.

Definition poly_libm : MathLib :=
  {| np_sin := poly_sin; np_cos := poly_cos;
     np_arctan := poly_arctan; math_atan2 := poly_atan2 |}.

(** The path of the specification's nearest-waypoint example. *)
Definition sample_path : list waypoint :=
  [Waypoint 0 0 5; Waypoint 10 0 8; Waypoint 20 0 3].

(** A controller that has seen one frame at (9, 0), heading along -y. *)
Definition sample_warm : Controller2D :=
  update_values (init sample_path) 9 0 (- (np_pi / 2)) 4 0.05 1%Z.

(** A Cold sequence: two ticks before any frame with a non-zero index. *)
Definition sample_cold_calls : list method_call :=
  [Update_controls; Get_commands; Update_values 9 0 0 4 0.05 0%Z;
   Update_controls; Get_commands].

(** Two ticks of the harness loop, the second one Warm. *)
Definition sample_drive (t1 t2 : float) : list method_call :=
  [Update_values 0 0 0 0 t1 0%Z; Update_controls; Get_commands;
   Update_values 9 0 (- (np_pi / 2)) 4 t2 1%Z; Update_controls; Get_commands].

(** The Warm sample after a hundred ticks, past the startup suppression. *)
Definition sample_cruising : Controller2D :=
  run poly_libm sample_warm (repeat Update_controls 100).

(** ** Vocabulary of the statements *)

(** The value [update_controls] works with once [create_var] has run: the
    stored attribute, or the default when it was absent. *)
Definition or_default {A : Type} (slot : option A) (value : A) : A :=
  match slot with
  | Some a => a
  | None => value
  end.

(** Calls that keep a controller Cold: everything the harness uses except
    an [update_values] with a non-zero frame index. *)
Definition cold_call (m : method_call) : bool :=
  match m with
  | Update_values _ _ _ _ _ frame => (frame =? 0)%Z
  | Update_waypoints _ | Update_controls | Get_commands => true
  | Set_throttle _ | Set_steer _ | Set_brake _ => false
  end.

(** Every path handed to [update_waypoints] has a waypoint. *)
Definition nonempty_paths (ms : list method_call) : bool :=
  forallb (fun m => match m with
                    | Update_waypoints [] => false
                    | _ => true
                    end) ms.

(** The number of [update_controls] calls in a sequence. *)
Definition count_update_controls (ms : list method_call) : nat :=
  length (filter (fun m => match m with Update_controls => true | _ => false end) ms).

(** Two calls that differ at most in the timestamp passed to
    [update_values]. *)
Definition same_but_timestamp (m1 m2 : method_call) : Prop :=
  match m1, m2 with
  | Update_values x1 y1 yaw1 speed1 _ frame1, Update_values x2 y2 yaw2 speed2 _ frame2 =>
      x1 = x2 /\ y1 = y2 /\ yaw1 = yaw2 /\ speed1 = speed2 /\ frame1 = frame2
  | _, _ => m1 = m2
  end.

(** The controller with its stored timestamp overwritten. *)
Definition with_timestamp (c : Controller2D) (t : float) : Controller2D :=
  {| vars := vars c;
     _current_x := _current_x c; _current_y := _current_y c;
     _current_yaw := _current_yaw c; _current_speed := _current_speed c;
     _desired_speed := _desired_speed c; _current_frame := _current_frame c;
     _current_timestamp := t;
     _start_control_loop := _start_control_loop c;
     _set_throttle := _set_throttle c; _set_brake := _set_brake c;
     _set_steer := _set_steer c; _waypoints := _waypoints c |}.

Definition outcome_with_timestamp (o : outcome) (t : float) : outcome :=
  match o with
  | Ok c => Ok (with_timestamp c t)
  | Raise e c => Raise e (with_timestamp c t)
  end.

(** What the loop of [update_desired_speed] has established once the
    waypoints [visited] are behind it: [min_dist] is never NaN; it is still
    the initial infinity with [min_idx = 0], or the distance of waypoint
    [min_idx]; no visited waypoint is strictly closer; and none before
    [min_idx] is as close. *)
Definition scan_inv (x y : float) (visited : list waypoint)
  (min_idx : Z) (min_dist : float) : Prop :=
  is_nan min_dist = false
  /\ ((min_idx = 0%Z /\ min_dist = float_inf)
      \/ (exists w, (0 <= min_idx)%Z /\ nth_error visited (Z.to_nat min_idx) = Some w
                    /\ min_dist = waypoint_dist x y w))
  /\ (forall j wj, nth_error visited j = Some wj ->
                   (waypoint_dist x y wj <? min_dist) = false)
  /\ (forall j wj, (Z.of_nat j < min_idx)%Z -> nth_error visited j = Some wj ->
                   (waypoint_dist x y wj <=? min_dist) = false).

(** The largest steering command the limit of 0.3 rad allows: what
    [set_steer] computes for 0.3 before its clamp. *)
Definition max_steer_command : float := _conv_rad_to_steer * 0.3.

(** The step counter is a non-negative integer that a binary64 float
    holds exactly. *)
Definition exact_step (s : Z) : Prop := (0 <= s < 2 ^ 53)%Z.

(** The exact value of a finite float, as a rational (0 for an infinity
    or a NaN, which no statement feeds it). *)
Definition float_exact (f : float) : QArith_base.Q :=
  match Prim2SF f with
  | S754_finite s m e =>
      QArith_base.Qmult (QArith_base.Qmake (cond_Zopp s (Z.pos m)) 1)
        (QArith_base.Qpower (QArith_base.Qmake 2 1) e)
  | _ => QArith_base.Qmake 0 1
  end.

(** The square of the Euclidean distance from [(x, y)] to a waypoint, in
    exact arithmetic. *)
Definition euclid_sq (x y : float) (w : waypoint) : QArith_base.Q :=
  let dx := QArith_base.Qminus (float_exact (wp_x w)) (float_exact x) in
  let dy := QArith_base.Qminus (float_exact (wp_y w)) (float_exact y) in
  QArith_base.Qplus (QArith_base.Qmult dx dx) (QArith_base.Qmult dy dy).

(** In the words of the specification: waypoint [m] is at the least
    Euclidean distance from [(x, y)], and is the first one at that
    distance.  Squares are compared, which orders the distances. *)
Definition euclid_nearest_first (x y : float) (wps : list waypoint) (m : nat) : Prop :=
  match nth_error wps m with
  | Some w =>
      (forall j wj, nth_error wps j = Some wj ->
                    QArith_base.Qle_bool (euclid_sq x y w) (euclid_sq x y wj) = true)
      /\ (forall j wj, (j < m)%nat -> nth_error wps j = Some wj ->
                       QArith_base.Qle_bool (euclid_sq x y wj) (euclid_sq x y w) = false)
  | None => False
  end.

(** The controller with its step counter set by hand. *)
Definition with_step (c : Controller2D) (s : Z) : Controller2D :=
  assign_vars c
    {| v_previous := v_previous (vars c);
       v_diff_previous := v_diff_previous (vars c);
       step := Some s |}.

(** A path whose squared distances from the origin exceed the binary64
    range, and one whose two waypoints are mirror images of each other. *)
Definition sample_far_path : list waypoint :=
  [Waypoint 2e200 0 5; Waypoint 1e200 0 8].

Definition sample_mirror_path : list waypoint :=
  [Waypoint 0.4 0.1 5; Waypoint 0.1 0.4 8].

(** [m / 2^n] rounded to the nearest integer, ties to even. *)
Definition rne (m n : Z) : Z :=
  let q := (m / 2 ^ n)%Z in
  let r := (m mod 2 ^ n)%Z in
  let h := (2 ^ (n - 1))%Z in
  if (r <? h)%Z then q else if ((r =? h)%Z && Z.even q)%bool then q else (q + 1)%Z.

(** The least exponent of binary64. *)
Definition emin64 : Z := (3 - emax - prec)%Z.

(** The order of two positive binary64 magnitudes [m1 * 2^e1] and
    [m2 * 2^e2] in canonical form. *)
Definition mag_le (m1 e1 m2 e2 : Z) : Prop :=
  (e1 < e2 \/ (e1 = e2 /\ m1 <= m2))%Z.

(** Section 4.6 in the specification's words: the persistent state after
    a tick with speed [v] and desired speed [v_d]. *)
Definition spec_advance (u : CUtils) (v v_d : float) : CUtils :=
  {| v_previous := Some v;
     v_diff_previous := Some (or_default (v_diff_previous u) 0 + (v_d - v));
     step := Some (or_default (step u) 0%Z + 1)%Z |}.

(** ** Vocabulary of the further properties *)

(** The attributes [update_controls] never assigns. *)
Definition same_inputs (c c' : Controller2D) : Prop :=
  _current_x c' = _current_x c
  /\ _current_y c' = _current_y c
  /\ _current_yaw c' = _current_yaw c
  /\ _current_speed c' = _current_speed c
  /\ _current_frame c' = _current_frame c
  /\ _current_timestamp c' = _current_timestamp c
  /\ _start_control_loop c' = _start_control_loop c
  /\ _waypoints c' = _waypoints c.

(** The controller with another heading. *)
Definition with_yaw (c : Controller2D) (yaw : float) : Controller2D :=
  {| vars := vars c;
     _current_x := _current_x c; _current_y := _current_y c;
     _current_yaw := yaw; _current_speed := _current_speed c;
     _desired_speed := _desired_speed c; _current_frame := _current_frame c;
     _current_timestamp := _current_timestamp c;
     _start_control_loop := _start_control_loop c;
     _set_throttle := _set_throttle c; _set_brake := _set_brake c;
     _set_steer := _set_steer c; _waypoints := _waypoints c |}.

(** The controller with another speed reading and speed history. *)
Definition with_speed_history (c : Controller2D) (speed : float)
  (previous accumulated : option float) : Controller2D :=
  {| vars := {| v_previous := previous; v_diff_previous := accumulated;
                step := step (vars c) |};
     _current_x := _current_x c; _current_y := _current_y c;
     _current_yaw := _current_yaw c; _current_speed := speed;
     _desired_speed := _desired_speed c; _current_frame := _current_frame c;
     _current_timestamp := _current_timestamp c;
     _start_control_loop := _start_control_loop c;
     _set_throttle := _set_throttle c; _set_brake := _set_brake c;
     _set_steer := _set_steer c; _waypoints := _waypoints c |}.

(** The library with another cosine. *)
Definition with_cos (libm : MathLib) (cos' : float -> float) : MathLib :=
  {| np_sin := np_sin libm; np_cos := cos';
     np_arctan := np_arctan libm; math_atan2 := math_atan2 libm |}.

(** Every call of the sequence returns; none raises. *)
Fixpoint returns_normally (libm : MathLib) (c : Controller2D) (ms : list method_call)
  : bool :=
  match ms with
  | [] => true
  | m :: ms' =>
      match invoke libm c m with
      | Ok c' => returns_normally libm c' ms'
      | Raise _ _ => false
      end
  end.

(** The calls of the harness loop: the setters are left to
    [update_controls]. *)
Definition harness_call (m : method_call) : bool :=
  match m with
  | Set_throttle _ | Set_steer _ | Set_brake _ => false
  | _ => true
  end.

(** ** Order facts about binary64 comparisons *)

Ltac cmp_cases :=
  change PosDef.Pos.compare_cont with Pos.compare_cont in *;
  change (Pos.compare_cont Eq) with Pos.compare in *;
  repeat match goal with
  | |- context [Z.compare ?a ?b] => destruct (Z.compare_spec a b)
  | H : context [Z.compare ?a ?b] |- _ => destruct (Z.compare_spec a b)
  | |- context [Pos.compare ?a ?b] => destruct (Pos.compare_spec a b)
  | H : context [Pos.compare ?a ?b] |- _ => destruct (Pos.compare_spec a b)
  end;
  cbn [CompOpp option_map] in *.

Lemma SFcompare_antisym (a b : spec_float) :
  SFcompare b a = option_map CompOpp (SFcompare a b).
Proof.
  destruct a as [[]|[]| |[] ma ea], b as [[]|[]| |[] mb eb]; simpl; try reflexivity;
    cmp_cases; subst; try reflexivity; lia.
Qed.

Lemma SFcompare_trans (a b c : spec_float) (o : comparison) :
  SFcompare a b = Some o -> SFcompare b c = Some o -> SFcompare a c = Some o.
Proof.
  destruct a as [[]|[]| |[] ma ea], b as [[]|[]| |[] mb eb], c as [[]|[]| |[] mc ec];
    simpl; try congruence;
    intros H1 H2; injection H1 as H1; injection H2 as H2; f_equal;
    cmp_cases; subst; try congruence; lia.
Qed.

Lemma SFcompare_Eq_l (a b c : spec_float) :
  SFcompare a b = Some Eq -> SFcompare a c = SFcompare b c.
Proof.
  destruct a as [[]|[]| |[] ma ea], b as [[]|[]| |[] mb eb], c as [[]|[]| |[] mc ec];
    simpl; try congruence;
    intros H1; injection H1 as H1; try f_equal;
    cmp_cases; subst; try congruence; lia.
Qed.

Lemma SFcompare_Eq_r (a b c : spec_float) :
  SFcompare b c = Some Eq -> SFcompare a b = SFcompare a c.
Proof.
  intros H.
  assert (Hcb : SFcompare c b = Some Eq) by (rewrite SFcompare_antisym, H; reflexivity).
  rewrite (SFcompare_antisym b a), (SFcompare_antisym c a).
  f_equal. symmetry. now apply SFcompare_Eq_l.
Qed.

Lemma SFcompare_refl (a : spec_float) :
  a <> S754_nan -> SFcompare a a = Some Eq.
Proof.
  destruct a as [[]|[]| |[] ma ea]; simpl; try congruence; intros _;
    cmp_cases; subst; try reflexivity; lia.
Qed.

Lemma SFcompare_None (a b : spec_float) :
  SFcompare a b = None -> a = S754_nan \/ b = S754_nan.
Proof.
  destruct a as [[]|[]| |[] ma ea], b as [[]|[]| |[] mb eb]; simpl; auto; discriminate.
Qed.

Lemma Prim2SF_nan (x : float) : Prim2SF x = S754_nan <-> is_nan x = true.
Proof.
  unfold Prim2SF. destruct (is_nan x); [tauto|].
  split; [|discriminate].
  destruct (is_zero x); [discriminate|].
  destruct (is_infinity x); [discriminate|].
  destruct (Z.frexp x) as [r e].
  destruct (shr_fexp _ _ _ _ _) as [s e'].
  destruct (shr_m s); discriminate.
Qed.

(** The three comparisons of two floats, read off [SFcompare]. *)
Ltac float_cmp :=
  rewrite ?ltb_spec, ?leb_spec in *; unfold SFltb, SFleb in *.

Lemma ltb_trans (x y z : float) :
  (x <? y) = true -> (y <? z) = true -> (x <? z) = true.
Proof.
  float_cmp.
  destruct (SFcompare (Prim2SF x) (Prim2SF y)) as [[]|] eqn:Hxy; try discriminate.
  destruct (SFcompare (Prim2SF y) (Prim2SF z)) as [[]|] eqn:Hyz; try discriminate.
  now rewrite (SFcompare_trans _ _ _ _ Hxy Hyz).
Qed.

Lemma leb_ltb_trans (x y z : float) :
  (x <=? y) = true -> (y <? z) = true -> (x <? z) = true.
Proof.
  float_cmp.
  destruct (SFcompare (Prim2SF x) (Prim2SF y)) as [[]|] eqn:Hxy; try discriminate;
  destruct (SFcompare (Prim2SF y) (Prim2SF z)) as [[]|] eqn:Hyz; try discriminate; intros _ _.
  - now rewrite (SFcompare_Eq_l _ _ _ Hxy), Hyz.
  - now rewrite (SFcompare_trans _ _ _ _ Hxy Hyz).
Qed.

Lemma ltb_leb_trans (x y z : float) :
  (x <? y) = true -> (y <=? z) = true -> (x <? z) = true.
Proof.
  float_cmp.
  destruct (SFcompare (Prim2SF x) (Prim2SF y)) as [[]|] eqn:Hxy; try discriminate;
  destruct (SFcompare (Prim2SF y) (Prim2SF z)) as [[]|] eqn:Hyz; try discriminate; intros _ _.
  - now rewrite <- (SFcompare_Eq_r _ _ _ Hyz), Hxy.
  - now rewrite (SFcompare_trans _ _ _ _ Hxy Hyz).
Qed.

Lemma leb_trans (x y z : float) :
  (x <=? y) = true -> (y <=? z) = true -> (x <=? z) = true.
Proof.
  float_cmp.
  destruct (SFcompare (Prim2SF x) (Prim2SF y)) as [[]|] eqn:Hxy; try discriminate;
  destruct (SFcompare (Prim2SF y) (Prim2SF z)) as [[]|] eqn:Hyz; try discriminate; intros _ _.
  - now rewrite (SFcompare_Eq_l _ _ _ Hxy), Hyz.
  - now rewrite (SFcompare_Eq_l _ _ _ Hxy), Hyz.
  - now rewrite <- (SFcompare_Eq_r _ _ _ Hyz), Hxy.
  - now rewrite (SFcompare_trans _ _ _ _ Hxy Hyz).
Qed.

Lemma ltb_leb_incl (x y : float) : (x <? y) = true -> (x <=? y) = true.
Proof.
  float_cmp. now destruct (SFcompare (Prim2SF x) (Prim2SF y)) as [[]|].
Qed.

Lemma ltb_not_leb (x y : float) : (x <? y) = true -> (y <=? x) = false.
Proof.
  float_cmp. rewrite (SFcompare_antisym (Prim2SF x) (Prim2SF y)).
  now destruct (SFcompare (Prim2SF x) (Prim2SF y)) as [[]|].
Qed.

Lemma leb_not_ltb (x y : float) : (x <=? y) = true -> (y <? x) = false.
Proof.
  float_cmp. rewrite (SFcompare_antisym (Prim2SF x) (Prim2SF y)).
  now destruct (SFcompare (Prim2SF x) (Prim2SF y)) as [[]|].
Qed.

Lemma ltb_irrefl (x : float) : (x <? x) = false.
Proof.
  destruct (x <? x) eqn:H; [|reflexivity].
  now rewrite (leb_not_ltb x x (ltb_leb_incl _ _ H)) in H.
Qed.

Lemma not_ltb_leb (x y : float) :
  is_nan x = false -> is_nan y = false -> (x <? y) = false -> (y <=? x) = true.
Proof.
  intros Hx Hy. float_cmp. rewrite (SFcompare_antisym (Prim2SF x) (Prim2SF y)).
  destruct (SFcompare (Prim2SF x) (Prim2SF y)) as [[]|] eqn:Hc; try easy.
  destruct (SFcompare_None _ _ Hc) as [H|H]; apply Prim2SF_nan in H; congruence.
Qed.

Lemma leb_is_nan_l (x y : float) : (x <=? y) = true -> is_nan x = false.
Proof.
  float_cmp. destruct (is_nan x) eqn:H; [|reflexivity].
  apply Prim2SF_nan in H. now rewrite H.
Qed.

Lemma leb_is_nan_r (x y : float) : (x <=? y) = true -> is_nan y = false.
Proof.
  float_cmp. destruct (is_nan y) eqn:H; [|reflexivity].
  apply Prim2SF_nan in H. rewrite H. now destruct (Prim2SF x).
Qed.

Lemma leb_refl (x : float) : is_nan x = false -> (x <=? x) = true.
Proof.
  intros H. float_cmp. rewrite SFcompare_refl; [reflexivity|].
  intros E. apply Prim2SF_nan in E. congruence.
Qed.

Lemma leb_infinity (x : float) : is_nan x = false -> (x <=? infinity) = true.
Proof.
  intros H. float_cmp.
  destruct (Prim2SF x) as [[]|[]| |[] m e] eqn:E; try reflexivity.
  apply Prim2SF_nan in E. congruence.
Qed.

Lemma ltb_is_nan_l (x y : float) : (x <? y) = true -> is_nan x = false.
Proof. intros H. exact (leb_is_nan_l _ _ (ltb_leb_incl _ _ H)). Qed.

Lemma ltb_is_nan_r (x y : float) : (x <? y) = true -> is_nan y = false.
Proof. intros H. exact (leb_is_nan_r _ _ (ltb_leb_incl _ _ H)). Qed.

(** Binary64 addition is commutative. *)
Lemma SFadd_comm (prec emax : Z) (a b : spec_float) :
  SFadd prec emax a b = SFadd prec emax b a.
Proof.
  destruct a as [[]|[]| |sa ma ea], b as [[]|[]| |sb mb eb]; try reflexivity.
  unfold SFadd. rewrite (Z.min_comm eb ea). f_equal. apply Z.add_comm.
Qed.

Lemma add_comm (x y : float) : x + y = y + x.
Proof. apply Prim2SF_inj. rewrite !add_spec. apply SFadd_comm. Qed.

(** ** The NumPy clamp of the setters *)

Lemma np_clamp_in_range (lo hi x : float) :
  (lo <=? hi) = true -> in_range lo hi (np_fmax (np_fmin x hi) lo) = true.
Proof.
  intros Hlh.
  pose proof (leb_is_nan_l _ _ Hlh) as Hlo.
  pose proof (leb_is_nan_r _ _ Hlh) as Hhi.
  unfold np_fmax, np_fmin, in_range. rewrite Hlo, Hhi, !orb_false_r.
  destruct (x <=? hi) eqn:Hx; cbv iota.
  - destruct (lo <=? x) eqn:Hl; cbv iota.
    + now rewrite Hl, Hx.
    + now rewrite (leb_refl lo Hlo), Hlh.
  - now rewrite !Hlh, (leb_refl hi Hhi).
Qed.

(** A value already inside the range passes the NumPy clamp unchanged. *)
Lemma np_clamp_id (lo hi x : float) :
  in_range lo hi x = true -> np_fmax (np_fmin x hi) lo = x.
Proof.
  unfold in_range. intros H. apply andb_prop in H as [Hl Hh].
  unfold np_fmax, np_fmin. rewrite Hh. cbn [orb]. now rewrite Hl.
Qed.

Lemma set_throttle_range (c : Controller2D) (x : float) :
  in_range 0 1 (_set_throttle (set_throttle c x)) = true.
Proof. apply np_clamp_in_range. reflexivity. Qed.

Lemma set_brake_range (c : Controller2D) (x : float) :
  in_range 0 1 (_set_brake (set_brake c x)) = true.
Proof. apply np_clamp_in_range. reflexivity. Qed.

Lemma set_steer_range (c : Controller2D) (x : float) :
  in_range (-1) 1 (_set_steer (set_steer c x)) = true.
Proof. apply (np_clamp_in_range (-1) 1). reflexivity. Qed.

(** ** Python list indexing *)

Lemma py_getitem_cases {A : Type} (l : list A) (i : Z) :
  (exists a, py_getitem l i = Success a /\ In a l)
  \/ py_getitem l i = Failure IndexError.
Proof.
  unfold py_getitem.
  destruct (_ && _)%bool; [|now right].
  destruct (nth_error l _) as [a|] eqn:E; [|now right].
  left. exists a. split; [reflexivity|]. eapply nth_error_In, E.
Qed.

Lemma py_getitem_nth {A : Type} (l : list A) (k : nat) (a : A) :
  nth_error l k = Some a -> py_getitem l (Z.of_nat k) = Success a.
Proof.
  intros E. unfold py_getitem.
  assert (k < length l)%nat by (apply nth_error_Some; congruence).
  destruct (Z.ltb_spec (Z.of_nat k) 0); [lia|].
  destruct (Z.leb_spec 0 (Z.of_nat k)); [|lia].
  destruct (Z.ltb_spec (Z.of_nat k) (Z.of_nat (length l))); [|lia].
  cbn [andb]. now rewrite Nat2Z.id, E.
Qed.

Lemma py_getitem_last {A : Type} (l : list A) (a : A) :
  nth_error l (length l - 1) = Some a -> py_getitem l (-1)%Z = Success a.
Proof.
  intros E. unfold py_getitem.
  assert (length l - 1 < length l)%nat by (apply nth_error_Some; congruence).
  change (-1 <? 0)%Z with true. cbv iota.
  destruct (Z.leb_spec 0 (-1 + Z.of_nat (length l))); [|lia].
  destruct (Z.ltb_spec (-1 + Z.of_nat (length l)) (Z.of_nat (length l))); [|lia].
  cbn [andb].
  replace (Z.to_nat (-1 + Z.of_nat (length l))) with (length l - 1)%nat by lia.
  now rewrite E.
Qed.

(** ** The persistent variables *)

Lemma create_var_or_default {A : Type} (slot : option A) (value : A) :
  create_var slot value = Some (or_default slot value).
Proof. now destruct slot. Qed.

Lemma create_var_idempotent {A : Type} (slot : option A) (v1 v2 : A) :
  create_var (create_var slot v1) v2 = create_var slot v1.
Proof. now destruct slot. Qed.

Lemma create_var_keeps {A : Type} (a value : A) :
  create_var (Some a) value = Some a.
Proof. reflexivity. Qed.

(** ** The nearest-waypoint scan *)

Lemma scan_inv_init (x y : float) : scan_inv x y [] 0%Z float_inf.
Proof.
  repeat split.
  - now left.
  - intros [|j] wj; discriminate.
  - intros [|j] wj; discriminate.
Qed.

Lemma scan_inv_step (x y : float) (visited : list waypoint) (w : waypoint)
  (min_idx : Z) (min_dist : float) :
  scan_inv x y visited min_idx min_dist ->
  let dist := waypoint_dist x y w in
  scan_inv x y (visited ++ [w])
    (if dist <? min_dist then Z.of_nat (length visited) else min_idx)
    (if dist <? min_dist then dist else min_dist).
Proof.
  intros (Hnan & Hidx & Hmin & Hfirst) dist.
  assert (Hsplit : forall j wj, nth_error (visited ++ [w]) j = Some wj ->
            (j < length visited)%nat /\ nth_error visited j = Some wj
            \/ j = length visited /\ wj = w).
  { intros j wj E. destruct (Nat.lt_ge_cases j (length visited)) as [Hj|Hj].
    - left. split; [exact Hj|]. now rewrite nth_error_app1 in E.
    - right. rewrite nth_error_app2 in E by exact Hj.
      destruct (j - length visited)%nat as [|[|k]] eqn:Ek; simpl in E;
        try discriminate. split; [lia|congruence]. }
  destruct (dist <? min_dist) eqn:Hlt.
  - repeat split.
    + exact (ltb_is_nan_l _ _ Hlt).
    + right. exists w. split; [lia|]. split; [|reflexivity].
      rewrite Nat2Z.id, nth_error_app2, Nat.sub_diag; [reflexivity|lia].
    + intros j wj E. destruct (Hsplit j wj E) as [[_ Ej]|[_ ->]].
      * destruct (waypoint_dist x y wj <? dist) eqn:Hj; [|reflexivity].
        now rewrite <- (Hmin j wj Ej), (ltb_trans _ _ _ Hj Hlt).
      * apply ltb_irrefl.
    + intros j wj Hj E. destruct (Hsplit j wj E) as [[_ Ej]|[-> _]]; [|lia].
      destruct (waypoint_dist x y wj <=? dist) eqn:Hle; [|reflexivity].
      now rewrite <- (Hmin j wj Ej), (leb_ltb_trans _ _ _ Hle Hlt).
  - repeat split.
    + exact Hnan.
    + destruct Hidx as [H|(w' & H0 & Hw' & Hd)]; [now left|right].
      exists w'. split; [exact H0|]. split; [|exact Hd].
      rewrite nth_error_app1; [exact Hw'|]. apply nth_error_Some. congruence.
    + intros j wj E. destruct (Hsplit j wj E) as [[_ Ej]|[_ ->]].
      * exact (Hmin j wj Ej).
      * exact Hlt.
    + intros j wj Hj E. destruct (Hsplit j wj E) as [[_ Ej]|[-> _]].
      * exact (Hfirst j wj Hj Ej).
      * exfalso. destruct Hidx as [[H _]|(w' & H0 & Hw' & _)]; [lia|].
        assert (Z.to_nat min_idx < length visited)%nat
          by (apply nth_error_Some; congruence).
        lia.
Qed.

Lemma nearest_scan_inv (x y : float) (rest visited : list waypoint)
  (min_idx : Z) (min_dist : float) :
  scan_inv x y visited min_idx min_dist ->
  scan_inv x y (visited ++ rest)
    (fst (nearest_scan x y rest (Z.of_nat (length visited)) min_idx min_dist))
    (snd (nearest_scan x y rest (Z.of_nat (length visited)) min_idx min_dist)).
Proof.
  revert visited min_idx min_dist.
  induction rest as [|w rest IH]; intros visited min_idx min_dist Hinv.
  - now rewrite app_nil_r.
  - pose proof (scan_inv_step x y visited w min_idx min_dist Hinv) as Hstep.
    cbv zeta in Hstep. apply IH in Hstep.
    rewrite <- app_assoc, length_app in Hstep. cbn [length app] in Hstep.
    replace (Z.of_nat (length visited + 1)) with (Z.of_nat (length visited) + 1)%Z
      in Hstep by lia.
    cbn [nearest_scan].
    destruct (waypoint_dist x y w <? min_dist); exact Hstep.
Qed.

(** On a non-empty path the scan ends on a valid index whose waypoint is a
    nearest one, and the first such. *)
Lemma nearest_scan_nearest (x y : float) (wps : list waypoint) :
  wps <> [] ->
  exists m w,
    fst (nearest_scan x y wps 0%Z 0%Z float_inf) = Z.of_nat m
    /\ nth_error wps m = Some w
    /\ (forall j wj, nth_error wps j = Some wj ->
                    (waypoint_dist x y wj <? waypoint_dist x y w) = false)
    /\ (forall j wj, (j < m)%nat -> nth_error wps j = Some wj ->
                    (waypoint_dist x y wj <=? waypoint_dist x y w) = false).
Proof.
  intros Hne.
  pose proof (nearest_scan_inv x y wps [] 0%Z float_inf (scan_inv_init x y)) as H.
  cbn [app length] in H. change (Z.of_nat 0) with 0%Z in H.
  destruct (nearest_scan x y wps 0 0 float_inf) as [mi md]. cbn [fst snd] in *.
  destruct H as (Hnan & Hidx & Hmin & Hfirst).
  destruct Hidx as [[-> ->]|(w & H0 & Hw & ->)].
  - destruct wps as [|w0 wps']; [congruence|].
    exists 0%nat, w0. repeat split.
    + intros j wj E.
      destruct (waypoint_dist x y wj <? waypoint_dist x y w0) eqn:Hlt; [|reflexivity].
      rewrite <- (Hmin j wj E). symmetry.
      apply (ltb_leb_trans _ _ _ Hlt), leb_infinity, (ltb_is_nan_r _ _ Hlt).
    + intros j wj Hj. lia.
  - exists (Z.to_nat mi), w. repeat split.
    + lia.
    + exact Hw.
    + exact Hmin.
    + intros j wj Hj. apply Hfirst. lia.
Qed.

Lemma update_desired_speed_cases (c : Controller2D) :
  (exists w, In w (_waypoints c)
             /\ update_desired_speed c = Ok (assign_desired_speed c (wp_v w)))
  \/ update_desired_speed c = Raise IndexError c.
Proof.
  unfold update_desired_speed.
  destruct (nearest_scan _ _ _ _ _ _) as [mi md].
  destruct (mi <? _)%Z;
    match goal with
    | |- context [py_getitem ?l ?i] =>
        destruct (py_getitem_cases l i) as [(w & -> & Hin)| ->]
    end; cbn [try_in]; eauto.
Qed.

Lemma update_desired_speed_nearest (c : Controller2D) :
  _waypoints c <> [] ->
  exists m w,
    nth_error (_waypoints c) m = Some w
    /\ update_desired_speed c = Ok (assign_desired_speed c (wp_v w))
    /\ (forall j wj, nth_error (_waypoints c) j = Some wj ->
          (waypoint_dist (_current_x c) (_current_y c) wj
           <? waypoint_dist (_current_x c) (_current_y c) w) = false)
    /\ (forall j wj, (j < m)%nat -> nth_error (_waypoints c) j = Some wj ->
          (waypoint_dist (_current_x c) (_current_y c) wj
           <=? waypoint_dist (_current_x c) (_current_y c) w) = false).
Proof.
  intros Hne.
  destruct (nearest_scan_nearest (_current_x c) (_current_y c) _ Hne)
    as (m & w & Hm & Hw & Hmin & Hfirst).
  exists m, w. repeat split; try assumption.
  unfold update_desired_speed.
  destruct (nearest_scan _ _ _ _ _ _) as [mi md]. cbn [fst] in Hm. subst mi.
  assert (m < length (_waypoints c))%nat by (apply nth_error_Some; congruence).
  destruct (Z.ltb_spec (Z.of_nat m) (Z.of_nat (length (_waypoints c)) - 1)).
  - now rewrite (py_getitem_nth _ _ _ Hw).
  - replace m with (length (_waypoints c) - 1)%nat in Hw by lia.
    now rewrite (py_getitem_last _ _ Hw).
Qed.

(** ** The shape of one [update_controls] call *)

Section Update_controls.

Context (libm : MathLib).

Lemma update_controls_raise (c c' : Controller2D) (e : exn) :
  update_desired_speed c = Raise e c' -> update_controls libm c = Raise e c'.
Proof. intros H. unfold update_controls. now rewrite H. Qed.

(** Cold: only the desired speed and the persistent variables change. *)
Lemma update_controls_cold (c c1 : Controller2D) :
  update_desired_speed c = Ok c1 ->
  _start_control_loop c1 = false ->
  update_controls libm c
  = Ok (assign_vars c1 (spec_advance (vars c1) (_current_speed c) (_desired_speed c1))).
Proof.
  intros H Hcold. unfold update_controls. rewrite H. cbn [bind].
  destruct c1 as [[vp vd st] ? ? ? ? ? ? ? ? ? ? ? ?]. cbn in Hcold. subst.
  unfold spec_advance. rewrite add_comm.
  destruct vp, vd, st; reflexivity.
Qed.

(** Warm: the three setters run on the outputs of the two control blocks,
    then the persistent variables are stored. *)
Lemma update_controls_warm (c c1 : Controller2D) (wl : waypoint) :
  update_desired_speed c = Ok c1 ->
  _start_control_loop c1 = true ->
  lookahead_waypoint (_waypoints c1) (or_default (step (vars c1)) 0%Z) = Success wl ->
  update_controls libm c
  = Ok (assign_vars
          (set_brake
             (set_steer
                (set_throttle c1
                   (longitudinal_throttle (_current_speed c) (_desired_speed c1)
                      (or_default (v_previous (vars c1)) 0)
                      (or_default (v_diff_previous (vars c1)) 0)))
                (lateral_steer_angle libm (_current_x c) (_current_y c)
                   (_current_yaw c) (_desired_speed c1) wl
                   (or_default (step (vars c1)) 0%Z)))
             0)
          (spec_advance (vars c1) (_current_speed c) (_desired_speed c1))).
Proof.
  intros H Hwarm Hlook. unfold update_controls. rewrite H. cbn [bind].
  destruct c1 as [[vp vd st] ? ? ? ? ? ? ? ? ? ? ? ?].
  cbn [_start_control_loop _waypoints vars step] in Hwarm, Hlook. subst.
  unfold spec_advance. rewrite add_comm.
  destruct vp, vd, st; cbn [or_default] in *;
    cbn [assign_vars _start_control_loop vars create_var getattr try_in
         v_previous v_diff_previous step _waypoints bind];
    rewrite Hlook; reflexivity.
Qed.

(** Warm with no waypoint to steer at: the exception leaves the desired
    speed and the created variables behind, and the commands untouched. *)
Lemma update_controls_warm_raise (c c1 : Controller2D) (e : exn) :
  update_desired_speed c = Ok c1 ->
  _start_control_loop c1 = true ->
  lookahead_waypoint (_waypoints c1) (or_default (step (vars c1)) 0%Z) = Failure e ->
  update_controls libm c
  = Raise e (assign_vars c1
               {| v_previous := create_var (v_previous (vars c1)) 0;
                  v_diff_previous := create_var (v_diff_previous (vars c1)) 0;
                  step := create_var (step (vars c1)) 0%Z |}).
Proof.
  intros H Hwarm Hlook. unfold update_controls. rewrite H. cbn [bind].
  destruct c1 as [[vp vd st] ? ? ? ? ? ? ? ? ? ? ? ?].
  cbn [_start_control_loop _waypoints vars step] in Hwarm, Hlook. subst.
  destruct vp, vd, st; cbn [or_default] in *;
    cbn [assign_vars _start_control_loop vars create_var getattr try_in
         v_previous v_diff_previous step _waypoints bind];
    rewrite Hlook; reflexivity.
Qed.

End Update_controls.

(** ** Rounding at the bit level

    The primitive operations are specified by [SpecFloat]: a result is the
    exact value shifted right to [prec] digits and rounded to nearest,
    ties to even.  This section reads that off for the true division of
    the step counter by 3 and for the scaling of the steering angle. *)

Section Rounding.

Local Open Scope Z_scope.

Lemma digits2_pos_bounds (p : positive) :
  2 ^ (Z.pos (digits2_pos p) - 1) <= Z.pos p < 2 ^ Z.pos (digits2_pos p).
Proof.
  induction p as [p IH|p IH|].
  - cbn [digits2_pos]. rewrite Pos2Z.inj_succ.
    replace (Z.succ (Z.pos (digits2_pos p)) - 1) with (Z.succ (Z.pos (digits2_pos p) - 1)) by lia.
    rewrite !Z.pow_succ_r by lia. lia.
  - cbn [digits2_pos]. rewrite Pos2Z.inj_succ.
    replace (Z.succ (Z.pos (digits2_pos p)) - 1) with (Z.succ (Z.pos (digits2_pos p) - 1)) by lia.
    rewrite !Z.pow_succ_r by lia. lia.
  - cbn. lia.
Qed.

(** The number of binary digits is determined by the enclosing powers of 2. *)
Lemma Zdigits2_unique (m d : Z) :
  0 < d -> 2 ^ (d - 1) <= m < 2 ^ d -> Zdigits2 m = d.
Proof.
  intros Hd Hm. destruct m as [|p|p]; try lia.
  cbn [Zdigits2]. pose proof (digits2_pos_bounds p) as Hp.
  set (k := Z.pos (digits2_pos p)) in *.
  destruct (Z.lt_trichotomy k d) as [Hlt|[Heq|Hgt]]; [|exact Heq|].
  - assert (2 ^ k <= 2 ^ (d - 1)) by (apply Z.pow_le_mono_r; lia). lia.
  - assert (2 ^ d <= 2 ^ (k - 1)) by (apply Z.pow_le_mono_r; lia). lia.
Qed.

Lemma iter_pos_nat {A : Type} (f : A -> A) (p : positive) (x : A) :
  SpecFloat.iter_pos f p x = Nat.iter (Pos.to_nat p) f x.
Proof.
  revert x. induction p as [p IH|p IH|]; intros x; cbn [SpecFloat.iter_pos].
  - rewrite !IH, Pos2Nat.inj_xI.
    replace (S (2 * Pos.to_nat p)) with (Pos.to_nat p + (Pos.to_nat p + 1))%nat by lia.
    rewrite !Nat.iter_add. reflexivity.
  - rewrite !IH, Pos2Nat.inj_xO.
    replace (2 * Pos.to_nat p)%nat with (Pos.to_nat p + Pos.to_nat p)%nat by lia.
    rewrite Nat.iter_add. reflexivity.
  - reflexivity.
Qed.

Lemma shr_1_nonneg (m : Z) (r s : bool) :
  0 <= m ->
  shr_1 {| shr_m := m; shr_r := r; shr_s := s |}
  = {| shr_m := m / 2; shr_r := Z.odd m; shr_s := r || s |}.
Proof.
  intros Hm. rewrite <- Z.div2_div.
  destruct m as [|[p|p|]|p]; try lia; reflexivity.
Qed.

(** [n] right shifts of a non-negative mantissa that starts exact. *)
Lemma iter_shr_1 (n : nat) (m : Z) :
  0 <= m ->
  Nat.iter (S n) shr_1 {| shr_m := m; shr_r := false; shr_s := false |}
  = {| shr_m := m / 2 ^ Z.of_nat (S n);
       shr_r := Z.testbit m (Z.of_nat n);
       shr_s := negb (m mod 2 ^ Z.of_nat n =? 0) |}.
Proof.
  intros Hm. induction n as [|n IH].
  - cbn [Nat.iter]. rewrite shr_1_nonneg by exact Hm.
    change (Z.of_nat 1) with 1. change (Z.of_nat 0) with 0.
    rewrite Z.pow_1_r, Z.pow_0_r, Z.mod_1_r, Z.bit0_odd. reflexivity.
  - rewrite Nat.iter_succ, IH.
    assert (Hp : 0 < 2 ^ Z.of_nat (S n)) by (apply Z.pow_pos_nonneg; lia).
    rewrite shr_1_nonneg by (apply Z.div_pos; lia).
    f_equal.
    + rewrite Z.div_div by lia. f_equal.
      rewrite (Nat2Z.inj_succ (S n)), Z.pow_succ_r by lia. lia.
    + rewrite <- Z.bit0_odd, Z.div_pow2_bits by lia. reflexivity.
    + rewrite (Nat2Z.inj_succ n), Z.pow_succ_r by lia.
      rewrite (Z.mul_comm 2), Z.rem_mul_r by lia.
      set (a := m mod 2 ^ Z.of_nat n). set (b := (m / 2 ^ Z.of_nat n) mod 2).
      assert (0 <= a) by (apply Z.mod_pos_bound, Z.pow_pos_nonneg; lia).
      assert (0 <= b < 2) by (apply Z.mod_pos_bound; lia).
      assert (0 < 2 ^ Z.of_nat n) by (apply Z.pow_pos_nonneg; lia).
      destruct (Z.testbit m (Z.of_nat n)) eqn:Hbit.
      * apply Z.testbit_true in Hbit; [|lia]. fold b in Hbit.
        destruct (Z.eqb_spec (a + 2 ^ Z.of_nat n * b) 0); [nia|].
        now rewrite orb_true_l.
      * apply Z.testbit_false in Hbit; [|lia]. fold b in Hbit.
        rewrite Hbit, Z.mul_0_r, Z.add_0_r. reflexivity.
Qed.

Lemma shr_rne (m e : Z) (n : positive) :
  0 <= m ->
  let mrs := fst (shr (shr_record_of_loc m loc_Exact) e (Z.pos n)) in
  round_nearest_even (shr_m mrs) (loc_of_shr_record mrs) = rne m (Z.pos n)
  /\ snd (shr (shr_record_of_loc m loc_Exact) e (Z.pos n)) = e + Z.pos n.
Proof.
  intros Hm. cbn [shr fst snd shr_record_of_loc]. split; [|reflexivity].
  rewrite iter_pos_nat.
  destruct (Pos2Nat.is_succ n) as [k Hk]. rewrite Hk, iter_shr_1 by exact Hm.
  assert (Hn : Z.pos n = Z.of_nat (S k)) by lia.
  rewrite <- Hn. replace (Z.of_nat k) with (Z.pos n - 1) by lia.
  cbn [shr_m shr_r shr_s loc_of_shr_record]. unfold rne.
  set (h := 2 ^ (Z.pos n - 1)).
  assert (Hh : 0 < h) by (apply Z.pow_pos_nonneg; lia).
  assert (E : 2 ^ Z.pos n = h * 2).
  { unfold h. replace (Z.pos n) with (Z.succ (Z.pos n - 1)) at 1 by lia.
    rewrite Z.pow_succ_r by lia. lia. }
  assert (Er : m mod 2 ^ Z.pos n = m mod h + h * ((m / h) mod 2)).
  { rewrite E. apply Z.rem_mul_r; lia. }
  assert (0 <= m mod h < h) by (apply Z.mod_pos_bound; lia).
  assert (0 <= (m / h) mod 2 < 2) by (apply Z.mod_pos_bound; lia).
  rewrite Er. clear Er.
  destruct (Z.testbit m (Z.pos n - 1)) eqn:Hbit.
  - apply Z.testbit_true in Hbit; [|lia]. fold h in Hbit. rewrite Hbit.
    destruct (Z.ltb_spec (m mod h + h * 1) h); [lia|].
    destruct (Z.eqb_spec (m mod h) 0) as [E0|E0]; cbn [negb].
    + rewrite E0. cbn [Z.add]. rewrite Z.mul_1_r, Z.eqb_refl. cbn [andb].
      unfold round_nearest_even. cbv iota.
      destruct (Z.even (m / 2 ^ Z.pos n)); reflexivity.
    + destruct (Z.eqb_spec (m mod h + h * 1) h); [lia|]. reflexivity.
  - apply Z.testbit_false in Hbit; [|lia]. fold h in Hbit. rewrite Hbit.
    destruct (Z.ltb_spec (m mod h + h * 0) h); [|lia].
    destruct (negb (m mod h =? 0)); reflexivity.
Qed.

Lemma rne_bounds (m n : Z) : m / 2 ^ n <= rne m n <= m / 2 ^ n + 1.
Proof.
  unfold rne. destruct (_ <? _); [lia|]. destruct (_ && _); lia.
Qed.

(** Rounding to nearest even is monotone. *)
Lemma rne_mono (m m' n : Z) : 0 < n -> m <= m' -> rne m n <= rne m' n.
Proof.
  intros Hn Hm.
  assert (Hp : 0 < 2 ^ n) by (apply Z.pow_pos_nonneg; lia).
  assert (Hq : m / 2 ^ n <= m' / 2 ^ n) by (apply Z.div_le_mono; lia).
  destruct (Z.eq_dec (m / 2 ^ n) (m' / 2 ^ n)) as [E|E].
  - pose proof (Z.div_mod m (2 ^ n) ltac:(lia)) as D.
    pose proof (Z.div_mod m' (2 ^ n) ltac:(lia)) as D'.
    assert (Hr : m mod 2 ^ n <= m' mod 2 ^ n) by (rewrite E in D; lia).
    unfold rne. rewrite E.
    set (q := m' / 2 ^ n) in *. set (r := m mod 2 ^ n) in *.
    set (r' := m' mod 2 ^ n) in *. set (h := 2 ^ (n - 1)).
    destruct (Z.ltb_spec r h), (Z.ltb_spec r' h), (Z.eqb_spec r h),
      (Z.eqb_spec r' h), (Z.even q); cbn [andb]; lia.
  - pose proof (rne_bounds m n). pose proof (rne_bounds m' n). lia.
Qed.

Lemma rne_range (m n d : Z) :
  0 < n -> n < d -> 2 ^ (d - 1) <= m < 2 ^ d ->
  2 ^ (d - n - 1) <= rne m n <= 2 ^ (d - n).
Proof.
  intros Hn Hd [Hlo Hhi].
  assert (Hp : 0 < 2 ^ n) by (apply Z.pow_pos_nonneg; lia).
  pose proof (rne_bounds m n) as Hb.
  assert (E1 : 2 ^ (d - 1) = 2 ^ (d - n - 1) * 2 ^ n).
  { rewrite <- Z.pow_add_r by lia. f_equal. lia. }
  assert (E2 : 2 ^ d = 2 ^ (d - n) * 2 ^ n).
  { rewrite <- Z.pow_add_r by lia. f_equal. lia. }
  assert (2 ^ (d - n - 1) <= m / 2 ^ n).
  { apply Z.div_le_lower_bound; lia. }
  assert (m / 2 ^ n < 2 ^ (d - n)).
  { apply Z.div_lt_upper_bound; lia. }
  lia.
Qed.

(** The second rounding step: a mantissa of [prec] digits is kept, 2^prec
    is renormalised. *)
Lemma round_carry (s : bool) (M E : Z) :
  2 ^ (prec - 1) <= M <= 2 ^ prec -> emin64 <= E -> E < emax - prec ->
  (let '(mrs, e) := shr_fexp prec emax M E loc_Exact in
   match shr_m mrs with
   | Z0 => S754_zero s
   | Z.pos m => if e <=? emax - prec then S754_finite s m e else S754_infinity s
   | Z.neg _ => S754_nan
   end)
  = if M =? 2 ^ prec
    then S754_finite s (Z.to_pos (2 ^ (prec - 1))) (E + 1)
    else S754_finite s (Z.to_pos M) E.
Proof.
  intros HM Hlo Hhi. unfold emin64 in Hlo.
  destruct (Z.eqb_spec M (2 ^ prec)) as [EM|EM].
  - rewrite EM. unfold shr_fexp.
    replace (Zdigits2 (2 ^ prec)) with (prec + 1) by reflexivity.
    replace (fexp prec emax (prec + 1 + E) - E) with 1
      by (unfold fexp, SpecFloat.emin, prec, emax in *; lia).
    cbn [shr shr_record_of_loc SpecFloat.iter_pos].
    change (shr_1 {| shr_m := 2 ^ prec; shr_r := false; shr_s := false |})
      with {| shr_m := 2 ^ (prec - 1); shr_r := false; shr_s := false |}.
    cbn [shr_m]. change (2 ^ (prec - 1)) with (Z.pos (Z.to_pos (2 ^ (prec - 1)))).
    cbv iota beta.
    replace (E + 1 <=? emax - prec) with true
      by (symmetry; apply Z.leb_le; unfold prec, emax in *; lia).
    reflexivity.
  - assert (HM' : 2 ^ (prec - 1) <= M < 2 ^ prec) by lia.
    unfold shr_fexp. rewrite (Zdigits2_unique M prec) by (try exact HM'; reflexivity).
    replace (fexp prec emax (prec + E) - E) with 0
      by (unfold fexp, SpecFloat.emin, prec, emax in *; lia).
    cbn [shr shr_record_of_loc shr_m].
    assert (0 < 2 ^ (prec - 1)) by reflexivity.
    destruct M as [|pM|pM]; try lia.
    replace (E <=? emax - prec) with true
      by (symmetry; apply Z.leb_le; unfold prec, emax in *; lia).
    reflexivity.
Qed.

(** The rounding of a mantissa with more than [prec] digits, away from
    underflow and overflow. *)
Lemma binary_round_aux_normal (s : bool) (m e d : Z) :
  prec < d -> 2 ^ (d - 1) <= m < 2 ^ d ->
  emin64 <= e + d - prec -> e + d - prec < emax - prec ->
  binary_round_aux prec emax s m e loc_Exact
  = if rne m (d - prec) =? 2 ^ prec
    then S754_finite s (Z.to_pos (2 ^ (prec - 1))) (e + d - prec + 1)
    else S754_finite s (Z.to_pos (rne m (d - prec))) (e + d - prec).
Proof.
  intros Hd Hm Hlo Hhi. unfold emin64 in Hlo.
  assert (Hdig : Zdigits2 m = d) by (apply Zdigits2_unique; [unfold prec in Hd; lia|exact Hm]).
  unfold binary_round_aux. unfold shr_fexp at 1. rewrite Hdig.
  assert (Efexp : fexp prec emax (d + e) - e = d - prec).
  { unfold fexp, SpecFloat.emin. lia. }
  rewrite Efexp.
  assert (0 < 2 ^ (d - 1)) by (apply Z.pow_pos_nonneg; unfold prec in Hd; lia).
  destruct (d - prec) as [|n|n] eqn:En; try (unfold prec in *; lia).
  pose proof (shr_rne m e n ltac:(lia)) as [Hr He].
  destruct (shr (shr_record_of_loc m loc_Exact) e (Z.pos n)) as [mrs e1].
  cbn [fst snd] in Hr, He. rewrite Hr, He. clear Hr He mrs e1.
  pose proof (rne_range m (Z.pos n) d ltac:(lia) ltac:(unfold prec in *; lia) Hm) as HM.
  replace (d - Z.pos n) with prec in HM by lia.
  rewrite round_carry by (unfold emin64, prec, emax in *; lia).
  replace (e + d - prec) with (e + Z.pos n) by lia. reflexivity.
Qed.

(** Truncating a rounded quotient that lies in the right interval. *)
Lemma SFtrunc_interval (s : bool) (M Q k : Z) :
  0 <= k -> 0 <= Q -> Q * 2 ^ k <= M < (Q + 1) * 2 ^ k -> 0 < M ->
  SFtrunc (if M =? 2 ^ prec
           then S754_finite s (Z.to_pos (2 ^ (prec - 1))) (- k + 1)
           else S754_finite s (Z.to_pos M) (- k))
  = Some (if s then - Q else Q).
Proof.
  intros Hk HQ HM Hpos.
  assert (HK : 0 < 2 ^ k) by (apply Z.pow_pos_nonneg; lia).
  assert (Ediv : M / 2 ^ k = Q).
  { symmetry. apply Z.div_unique with (r := M - Q * 2 ^ k); lia. }
  destruct (Z.eqb_spec M (2 ^ prec)) as [EM|EM]; cbn [SFtrunc].
  - change (Z.pos (Z.to_pos (2 ^ (prec - 1)))) with (2 ^ (prec - 1)).
    assert (Ep : 2 ^ prec = 2 * 2 ^ (prec - 1)) by reflexivity.
    destruct (Z.ltb_spec (- k + 1) 0).
    + rewrite Z.shiftr_div_pow2 by lia.
      replace (- (- k + 1)) with (k - 1) by lia.
      assert (Ek : 2 ^ k = 2 * 2 ^ (k - 1)).
      { replace k with (Z.succ (k - 1)) at 1 by lia. apply Z.pow_succ_r. lia. }
      assert (0 < 2 ^ (k - 1)) by (apply Z.pow_pos_nonneg; lia).
      replace (2 ^ (prec - 1) / 2 ^ (k - 1)) with Q; [reflexivity|].
      apply Z.div_unique with (r := 2 ^ (prec - 1) - Q * 2 ^ (k - 1)); nia.
    + assert (Hk01 : k = 0 \/ k = 1) by lia.
      destruct Hk01; subst k.
      * rewrite Z.pow_0_r in *. replace Q with (2 ^ prec) by lia. reflexivity.
      * change (2 ^ 1) with 2 in *. replace Q with (2 ^ (prec - 1)) by lia.
        reflexivity.
  - rewrite Z2Pos.id by lia.
    destruct (Z.ltb_spec (- k) 0).
    + rewrite Z.shiftr_div_pow2, Z.opp_involutive, Ediv by lia. reflexivity.
    + assert (k = 0) by lia. subst k. rewrite Z.shiftl_0_r.
      rewrite Z.pow_0_r in *. replace Q with M by lia. reflexivity.
Qed.

Lemma SFdiv_3 (sg : bool) (p : positive) :
  Z.pos p < 2 ^ prec ->
  SFtrunc (SFdiv prec emax (S754_finite sg p 0) (S754_finite false 3 0))
  = Some (if sg then - (Z.pos p / 3) else Z.pos p / 3).
Proof.
  intros Hp.
  pose proof (digits2_pos_bounds p) as Hd.
  set (d := Z.pos (digits2_pos p)) in *.
  assert (Hd1 : 0 < d) by (unfold d; lia).
  assert (Hd53 : d <= prec).
  { destruct (Z.le_gt_cases d prec) as [H|H]; [exact H|].
    assert (2 ^ prec <= 2 ^ (d - 1)) by (apply Z.pow_le_mono_r; lia). lia. }
  cbn [SFdiv]. unfold SFdiv_core_binary.
  change (Zdigits2 (Z.pos p)) with d. change (Zdigits2 3) with 2.
  replace (Z.min (fexp prec emax (d + 0 - (2 + 0))) (0 - 0)) with (d - 55)
    by (unfold fexp, SpecFloat.emin, prec, emax in *; lia).
  replace (0 - 0 - (d - 55)) with (55 - d) by lia.
  set (k := 55 - d).
  assert (Hk : 2 <= k) by (unfold k, prec in *; lia).
  replace (match k with 0 => Z.pos p | Z.pos _ => Z.shiftl (Z.pos p) k | Z.neg _ => 0 end)
    with (Z.pos p * 2 ^ k)
    by (rewrite <- Z.shiftl_mul_pow2 by lia; destruct k; try lia; reflexivity).
  set (K := 2 ^ k).
  assert (HK4 : 4 <= K).
  { change 4 with (2 ^ 2). apply Z.pow_le_mono_r; lia. }
  assert (EK : 2 ^ d * K = 2 ^ 55).
  { unfold K. rewrite <- Z.pow_add_r by lia. f_equal. unfold k. lia. }
  assert (EK' : 2 ^ (d - 1) * K = 2 ^ 54).
  { unfold K. rewrite <- Z.pow_add_r by lia. f_equal. unfold k. lia. }
  pose proof (Z_div_mod (Z.pos p * K) 3 eq_refl) as Hdiv.
  destruct (Z.div_eucl (Z.pos p * K) 3) as [q r]. destruct Hdiv as [Hq Hr].
  set (Q := Z.pos p / 3).
  pose proof (Z.div_mod (Z.pos p) 3 ltac:(lia)) as HQ. fold Q in HQ.
  pose proof (Z.mod_pos_bound (Z.pos p) 3 ltac:(lia)) as Ht.
  set (t := Z.pos p mod 3) in *.
  assert (HQ0 : 0 <= Q) by (apply Z.div_pos; lia).
  assert (Hqlo : 2 ^ 52 <= q) by (change (2 ^ 54) with (4 * 2 ^ 52) in EK'; nia).
  assert (Hqhi : q < 2 ^ 54) by (change (2 ^ 55) with (2 * 2 ^ 54) in EK; nia).
  assert (HqQ : Q * K <= q) by nia.
  assert (HqQ' : q + 1 < (Q + 1) * K) by nia.
  cbn [xorb]. replace (xorb sg false) with sg by (destruct sg; reflexivity).
  unfold binary_round_aux.
  destruct (Z.lt_ge_cases q (2 ^ 53)) as [Hq53|Hq53].
  - (* 53 digits: no shift *)
    unfold shr_fexp at 1.
    rewrite (Zdigits2_unique q 53) by (try split; try lia; reflexivity).
    replace (fexp prec emax (53 + (d - 55)) - (d - 55)) with 0
      by (unfold fexp, SpecFloat.emin, prec, emax in *; lia).
    cbn [shr].
    set (M := round_nearest_even _ _).
    assert (HM : q <= M <= q + 1 /\ (M = q + 1 -> r = 2)).
    { unfold M, new_location, new_location_odd. cbn [Z.even].
      destruct (Z.eqb_spec r 0); [cbn; lia|].
      assert (Hr12 : r = 1 \/ r = 2) by lia.
      destruct Hr12; subst r; cbn; lia. }
    clearbody M.
    rewrite round_carry by (unfold emin64, prec, emax in *; lia).
    replace (d - 55) with (- k) by (unfold k; lia).
    replace (- k + 1) with (- k + 1) by lia.
    apply SFtrunc_interval; lia.
  - (* 54 digits: one shift *)
    unfold shr_fexp at 1.
    rewrite (Zdigits2_unique q 54) by (try split; try lia; reflexivity).
    replace (fexp prec emax (54 + (d - 55)) - (d - 55)) with 1
      by (unfold fexp, SpecFloat.emin, prec, emax in *; lia).
    cbn [shr SpecFloat.iter_pos].
    set (M := round_nearest_even _ _).
    assert (HM : q / 2 <= M <= (q + 1) / 2).
    { pose proof (Z.div2_odd q) as Eodd. rewrite Z.div2_div in Eodd.
      assert (Ehalf : (q + 1) / 2 = q / 2 + Z.b2z (Z.odd q)).
      { destruct (Z.odd q); cbn [Z.b2z] in *.
        - symmetry. apply Z.div_unique with (r := 0); lia.
        - symmetry. apply Z.div_unique with (r := 1); lia. }
      rewrite Ehalf. unfold M.
      destruct (new_location 3 r) as [|[]]; cbn [shr_record_of_loc];
        rewrite shr_1_nonneg by lia;
        cbn [shr_m shr_r shr_s loc_of_shr_record];
        destruct (Z.odd q); cbn [orb round_nearest_even Z.b2z loc_of_shr_record];
        try destruct (Z.even (q / 2)); lia. }
    clearbody M.
    assert (Hh : (q + 1) / 2 * 2 <= q + 1).
    { pose proof (Z.mul_div_le (q + 1) 2 ltac:(lia)). lia. }
    assert (Hl : q <= q / 2 * 2 + 1).
    { pose proof (Z.div_mod q 2 ltac:(lia)). pose proof (Z.mod_pos_bound q 2 ltac:(lia)). lia. }
    assert (HM' : 2 ^ (prec - 1) <= M <= 2 ^ prec).
    { change (2 ^ (prec - 1)) with (2 ^ 52). change (2 ^ prec) with (2 * 2 ^ 52).
      change (2 ^ 53) with (2 * 2 ^ 52) in Hq53.
      change (2 ^ 54) with (4 * 2 ^ 52) in Hqhi. lia. }
    rewrite round_carry; [|exact HM'|unfold emin64, prec, emax in *; lia..].
    replace (d - 55 + 1) with (- (k - 1)) by (unfold k; lia).
    assert (EK2 : K = 2 * 2 ^ (k - 1)).
    { unfold K. replace k with (Z.succ (k - 1)) at 1 by lia. apply Z.pow_succ_r. lia. }
    assert (0 < 2 ^ (k - 1)) by (apply Z.pow_pos_nonneg; lia).
    apply SFtrunc_interval; try lia; nia.
Qed.

(** Below 2^53 in magnitude, [int(s / 3)] is the integer quotient truncated
    toward zero. *)
Lemma int_truediv_3 (s : Z) :
  Z.abs s < 2 ^ 53 -> int_truediv s 3 = Success (Z.quot s 3).
Proof.
  intros Hs. unfold int_truediv. cbn [Z.eqb].
  destruct s as [|p|p]; cbn [Z2SF].
  - reflexivity.
  - rewrite (SFdiv_3 false p) by (exact Hs).
    rewrite Z.quot_div_nonneg by lia. reflexivity.
  - rewrite (SFdiv_3 true p) by (exact Hs).
    change (Z.neg p) with (- Z.pos p). rewrite Z.quot_opp_l by lia.
    rewrite Z.quot_div_nonneg by lia. reflexivity.
Qed.

Lemma int_truediv_3_floor (s : Z) :
  exact_step s -> int_truediv s 3 = Success (s / 3).
Proof.
  unfold exact_step. intros Hs. rewrite int_truediv_3 by lia.
  rewrite Z.quot_div_nonneg by lia. reflexivity.
Qed.

Lemma SFleb_finite_pos (m1 m2 : positive) (e1 e2 : Z) :
  SFleb (S754_finite false m1 e1) (S754_finite false m2 e2) = true
  <-> mag_le (Z.pos m1) e1 (Z.pos m2) e2.
Proof.
  unfold SFleb, SFcompare, mag_le.
  change (PosDef.Pos.compare_cont Eq m1 m2) with (Z.pos m1 ?= Z.pos m2).
  destruct (Z.compare_spec e1 e2), (Z.compare_spec (Z.pos m1) (Z.pos m2));
    split; intros; try discriminate; try reflexivity; lia.
Qed.

Lemma SFleb_finite_neg (m1 m2 : positive) (e1 e2 : Z) :
  SFleb (S754_finite true m1 e1) (S754_finite true m2 e2) = true
  <-> mag_le (Z.pos m2) e2 (Z.pos m1) e1.
Proof.
  unfold SFleb, SFcompare, mag_le.
  change (PosDef.Pos.compare_cont Eq m1 m2) with (Z.pos m1 ?= Z.pos m2).
  destruct (Z.compare_spec e1 e2), (Z.compare_spec (Z.pos m1) (Z.pos m2));
    cbn [CompOpp]; split; intros; try discriminate; try reflexivity; lia.
Qed.

Lemma SFltb_finite_pos (m1 m2 : positive) (e1 e2 : Z) :
  SFltb (S754_finite false m1 e1) (S754_finite false m2 e2) = false
  <-> mag_le (Z.pos m2) e2 (Z.pos m1) e1.
Proof.
  unfold SFltb, SFcompare, mag_le.
  change (PosDef.Pos.compare_cont Eq m1 m2) with (Z.pos m1 ?= Z.pos m2).
  destruct (Z.compare_spec e1 e2), (Z.compare_spec (Z.pos m1) (Z.pos m2));
    split; intros; try discriminate; try reflexivity; lia.
Qed.

(** A canonical mantissa above the subnormal range has [prec] digits. *)
Lemma canonical_normal (m : positive) (e : Z) :
  canonical_mantissa prec emax m e = true -> emin64 < e ->
  2 ^ (prec - 1) <= Z.pos m < 2 ^ prec.
Proof.
  unfold canonical_mantissa, fexp, emin64, SpecFloat.emin. intros Hc He.
  apply Z.eqb_eq in Hc. pose proof (digits2_pos_bounds m) as Hd.
  replace (Z.pos (digits2_pos m)) with prec in Hd by lia. exact Hd.
Qed.

Lemma rne_le_succ (m n c : Z) : 0 < n -> m < c * 2 ^ n -> rne m n <= c.
Proof.
  intros Hn Hm. pose proof (rne_bounds m n).
  assert (0 < 2 ^ n) by (apply Z.pow_pos_nonneg; lia).
  assert (m / 2 ^ n < c) by (apply Z.div_lt_upper_bound; lia). lia.
Qed.

(** Scaling a steering angle of magnitude between 0.05 and 0.3 by
    [_conv_rad_to_steer] gives a magnitude of at most
    [_conv_rad_to_steer * 0.3]. *)
Lemma SFmul_conv_bound (s : bool) (ma : positive) (ea : Z) :
  canonical_mantissa prec emax ma ea = true ->
  mag_le 7205759403792794 (-57) (Z.pos ma) ea ->
  mag_le (Z.pos ma) ea 5404319552844595 (-54) ->
  exists (M : positive) (E : Z),
    SFmul prec emax (S754_finite false 7372492893286276 (-53)) (S754_finite s ma ea)
    = S754_finite s M E
    /\ mag_le (Z.pos M) E 8846991471943531 (-55).
Proof.
  intros Hc Hlo Hhi.
  assert (He : -57 <= ea <= -54) by (unfold mag_le in *; lia).
  pose proof (canonical_normal ma ea Hc ltac:(unfold emin64, prec, emax; lia)) as Hma.
  change (2 ^ (prec - 1)) with (2 ^ 52) in Hma. change (2 ^ prec) with (2 * 2 ^ 52) in Hma.
  cbn [SFmul xorb]. rewrite Pos2Z.inj_mul.
  set (P := 7372492893286276 * Z.pos ma).
  destruct (Z.lt_ge_cases P (2 ^ 105)) as [HP|HP].
  - rewrite (binary_round_aux_normal s P (-53 + ea) 105);
      [|reflexivity|unfold P; change (2 ^ (105 - 1)) with (2 ^ 52 * 2 ^ 52); lia
       |unfold emin64, prec, emax; lia..].
    change (105 - prec) with 52.
    assert (Hr : ea = -54 -> rne P 52 <= 8846991471943531).
    { intros ->. destruct Hhi as [Hhi|[_ Hhi]]; [lia|].
      change 8846991471943531 with (rne (7372492893286276 * 5404319552844595) 52).
      apply rne_mono; [lia|unfold P; lia]. }
    pose proof (rne_range P 52 105 ltac:(lia) ltac:(lia)
                  ltac:(unfold P; change (2 ^ (105 - 1)) with (2 ^ 52 * 2 ^ 52); lia)) as HM.
    change (2 ^ (105 - 52 - 1)) with (2 ^ 52) in HM.
    change (2 ^ (105 - 52)) with (2 ^ prec) in HM.
    destruct (Z.eqb_spec (rne P 52) (2 ^ prec)) as [EM|EM].
    + eexists _, _. split; [reflexivity|].
      change (Z.pos (Z.to_pos (2 ^ (prec - 1)))) with (2 ^ 52).
      unfold mag_le. change (2 ^ prec) with 9007199254740992 in EM. 
      change (2 ^ 52) with 4503599627370496. unfold prec. lia.
    + eexists _, _. split; [reflexivity|].
      assert (0 < 2 ^ 52) by reflexivity.
      rewrite Z2Pos.id by lia. unfold mag_le, prec. lia.
  - assert (HP' : P < 2 ^ 106).
    { unfold P. change (2 ^ 106) with (2 ^ 54 * 2 ^ 52). 
      change (2 ^ 54) with 18014398509481984. lia. }
    rewrite (binary_round_aux_normal s P (-53 + ea) 106);
      [|reflexivity|split; [exact HP|exact HP']
       |unfold emin64, prec, emax; lia..].
    change (106 - prec) with 53.
    assert (HM : rne P 53 <= 7372492893286276).
    { apply rne_le_succ; [lia|]. unfold P. change (2 ^ 53) with (2 * 2 ^ 52). lia. }
    pose proof (rne_range P 53 106 ltac:(lia) ltac:(lia) (conj HP HP')) as HM2.
    change (2 ^ (106 - 53 - 1)) with (2 ^ 52) in HM2.
    assert (ea <> -54).
    { intros ->. destruct Hhi as [Hhi|[_ Hhi]]; [lia|].
      assert (P <= 7372492893286276 * 5404319552844595) by (unfold P; lia).
      assert (7372492893286276 * 5404319552844595 < 2 ^ 105) by reflexivity. lia. }
    destruct (Z.eqb_spec (rne P 53) (2 ^ prec)) as [EM|EM].
    + change (2 ^ prec) with 9007199254740992 in EM. lia.
    + eexists _, _. split; [reflexivity|].
      assert (0 < 2 ^ 52) by reflexivity.
      rewrite Z2Pos.id by lia. unfold mag_le, prec. lia.
Qed.

End Rounding.

Lemma mul_conv_in_range (a : float) :
  in_range (-0.3) 0.3 a = true -> (np_abs a <? 0.05) = false ->
  in_range (- max_steer_command) max_steer_command (_conv_rad_to_steer * a) = true.
Proof.
  unfold in_range, np_abs, max_steer_command. intros Hr Hband.
  apply andb_prop in Hr. destruct Hr as [Hlo Hhi].
  rewrite leb_spec in Hlo, Hhi. rewrite ltb_spec, abs_spec in Hband.
  rewrite !leb_spec, mul_spec.
  pose proof (Prim2SF_valid a) as Hv.
  change (Prim2SF 0.3) with (S754_finite false 5404319552844595 (-54)) in Hhi.
  change (Prim2SF (-0.3)) with (S754_finite true 5404319552844595 (-54)) in Hlo.
  change (Prim2SF 0.05) with (S754_finite false 7205759403792794 (-57)) in Hband.
  change (Prim2SF _conv_rad_to_steer) with (S754_finite false 7372492893286276 (-53)).
  change (Prim2SF (_conv_rad_to_steer * 0.3))
    with (S754_finite false 8846991471943531 (-55)).
  change (Prim2SF (- (_conv_rad_to_steer * 0.3)))
    with (S754_finite true 8846991471943531 (-55)).
  destruct (Prim2SF a) as [sa|sa| |sa ma ea].
  - discriminate Hband.
  - destruct sa; discriminate.
  - discriminate.
  - cbn [SFabs] in Hband. apply SFltb_finite_pos in Hband.
    cbn [SpecFloat.valid_binary] in Hv. unfold bounded in Hv.
    apply andb_prop in Hv. destruct Hv as [Hc _].
    assert (Hmag : mag_le (Z.pos ma) ea 5404319552844595 (-54)).
    { destruct sa.
      - apply SFleb_finite_neg in Hlo. exact Hlo.
      - apply SFleb_finite_pos in Hhi. exact Hhi. }
    unfold SF64mul. destruct (SFmul_conv_bound sa ma ea Hc Hband Hmag) as (M & E & -> & HM).
    destruct sa.
    + apply andb_true_intro. split; [apply SFleb_finite_neg; exact HM|reflexivity].
    + apply andb_true_intro. split; [reflexivity|apply SFleb_finite_pos; exact HM].
Qed.

(** ** The lookahead waypoint *)

Lemma lookahead_waypoint_index (wps : list waypoint) (s : Z) :
  wps <> [] -> exact_step s ->
  exists w,
    lookahead_waypoint wps s = Success w
    /\ nth_error wps (Z.to_nat (Z.min (s / 3) (Z.of_nat (length wps) - 1))) = Some w.
Proof.
  intros Hne Hs.
  assert (0 < length wps)%nat by (destruct wps; [congruence|cbn; lia]).
  assert (0 <= s / 3)%Z by (apply Z.div_pos; unfold exact_step in Hs; lia).
  set (k := Z.to_nat (Z.min (s / 3) (Z.of_nat (length wps) - 1))).
  assert (Hk : (k < length wps)%nat) by lia.
  destruct (nth_error wps k) as [w|] eqn:E;
    [|apply nth_error_None in E; lia].
  exists w. split; [|reflexivity].
  unfold lookahead_waypoint. rewrite (int_truediv_3_floor s Hs).
  destruct (Z.ltb_spec (s / 3) (Z.of_nat (length wps) - 1)).
  - replace (s / 3)%Z with (Z.of_nat k) by lia. now apply py_getitem_nth.
  - replace (Z.of_nat (length wps) - 1)%Z with (Z.of_nat k) by lia.
    now apply py_getitem_nth.
Qed.

(** ** The two control blocks against the specification's formulas *)

(** The [if]/[elif] of the longitudinal block followed by [set_throttle]
    is one clamp to [0, 1]. *)
Lemma throttle_clamp (x : float) :
  is_nan x = false ->
  np_fmax (np_fmin (if 1 <? x then 1 else if x <? 0 then 0 else x) 1) 0
  = clamp 0 1 x.
Proof.
  intros Hx. unfold clamp.
  destruct (1 <? x) eqn:H1.
  - destruct (x <? 0) eqn:H0; [|reflexivity].
    pose proof (ltb_trans _ _ _ H1 H0) as H. discriminate H.
  - destruct (x <? 0) eqn:H0; [reflexivity|].
    apply np_clamp_id. unfold in_range.
    now rewrite (not_ltb_leb x 0 Hx eq_refl H0), (not_ltb_leb 1 x eq_refl Hx H1).
Qed.

(** A NaN fraction falls through both comparisons; [np.fmin] then drops
    it in favour of 1. *)
Lemma throttle_of_nan (x : float) :
  is_nan x = true ->
  np_fmax (np_fmin (if 1 <? x then 1 else if x <? 0 then 0 else x) 1) 0 = 1.
Proof.
  intros Hx.
  assert (H1 : (1 <? x) = false).
  { destruct (1 <? x) eqn:H; [|reflexivity].
    now rewrite (ltb_is_nan_r _ _ H) in Hx. }
  assert (H0 : (x <? 0) = false).
  { destruct (x <? 0) eqn:H; [|reflexivity].
    now rewrite (ltb_is_nan_l _ _ H) in Hx. }
  rewrite H1, H0. unfold np_fmin.
  destruct (x <=? 1) eqn:Hle; [|reflexivity].
  now rewrite (leb_is_nan_l _ _ Hle) in Hx.
Qed.

Lemma steer_limit_spec (s : float) :
  steer_limit s = snap_to_zero 0.05 (clamp (-0.3) 0.3 s).
Proof.
  unfold steer_limit, snap_to_zero, clamp, np_abs.
  destruct (0.3 <? s) eqn:Hhi, (s <? -0.3) eqn:Hlo; try reflexivity.
  pose proof (ltb_trans _ _ _ Hhi Hlo) as H. discriminate H.
Qed.

Lemma lateral_steer_angle_spec (libm : MathLib) (x y yaw v_d : float)
  (wl : waypoint) (s : Z) :
  lateral_steer_angle libm x y yaw v_d wl s
  = spec_steer_angle libm x y yaw v_d (wp_x wl) (wp_y wl) s.
Proof.
  unfold lateral_steer_angle, spec_steer_angle. rewrite steer_limit_spec.
  reflexivity.
Qed.

(** The angle handed to [set_steer] lies within 0.3 rad. *)
Lemma steer_limit_range (s : float) :
  is_nan s = false -> in_range (-0.3) 0.3 (steer_limit s) = true.
Proof.
  intros Hs. unfold steer_limit, np_abs.
  destruct (0.3 <? s) eqn:Hhi; [reflexivity|].
  destruct (s <? -0.3) eqn:Hlo; [reflexivity|].
  destruct (abs s <? 0.05); [reflexivity|].
  unfold in_range.
  now rewrite (not_ltb_leb s (-0.3) Hs eq_refl Hlo), (not_ltb_leb 0.3 s eq_refl Hs Hhi).
Qed.

(** ** Invariants over call sequences *)

Section Sequences.

Context (libm : MathLib).

(** One call either leaves the three commands alone or stores what the
    three setters produce. *)
Lemma update_controls_commands (c : Controller2D) :
  get_commands (state_after (update_controls libm c)) = get_commands c
  \/ exists t s,
       get_commands (state_after (update_controls libm c))
       = get_commands (set_brake (set_steer (set_throttle c t) s) 0).
Proof.
  destruct (update_desired_speed_cases c) as [(w & _ & H)|H].
  - destruct (_start_control_loop c) eqn:Hflag.
    + destruct (lookahead_waypoint (_waypoints c) (or_default (step (vars c)) 0%Z))
        as [wl|e] eqn:Hlook.
      * right. rewrite (update_controls_warm libm c _ wl H Hflag Hlook).
        eexists _, _. reflexivity.
      * left. now rewrite (update_controls_warm_raise libm c _ e H Hflag Hlook).
    + left. now rewrite (update_controls_cold libm c _ H Hflag).
  - left. now rewrite (update_controls_raise libm c c IndexError H).
Qed.

Lemma setters_in_range (c : Controller2D) (t s b : float) :
  commands_in_range (set_brake (set_steer (set_throttle c t) s) b) = true.
Proof.
  unfold commands_in_range.
  change (_set_throttle (set_brake (set_steer (set_throttle c t) s) b))
    with (_set_throttle (set_throttle c t)).
  change (_set_steer (set_brake (set_steer (set_throttle c t) s) b))
    with (_set_steer (set_steer (set_throttle c t) s)).
  now rewrite set_throttle_range, set_steer_range, set_brake_range.
Qed.

Lemma commands_in_range_ext (c c' : Controller2D) :
  get_commands c' = get_commands c ->
  commands_in_range c = true -> commands_in_range c' = true.
Proof.
  unfold get_commands, commands_in_range. intros E. now inversion E.
Qed.

Lemma invoke_commands_in_range (c : Controller2D) (m : method_call) :
  commands_in_range c = true ->
  commands_in_range (state_after (invoke libm c m)) = true.
Proof.
  intros Hc. destruct m; cbn [invoke state_after]; try exact Hc.
  - destruct (update_controls_commands c) as [E|(t & s & E)].
    + exact (commands_in_range_ext _ _ E Hc).
    + exact (commands_in_range_ext _ _ E (setters_in_range c t s 0)).
  - unfold commands_in_range in *. apply andb_prop in Hc as [Hc Hb].
    apply andb_prop in Hc as [_ Hs].
    change (_set_steer (set_throttle c input_throttle)) with (_set_steer c).
    change (_set_brake (set_throttle c input_throttle)) with (_set_brake c).
    now rewrite set_throttle_range, Hs, Hb.
  - unfold commands_in_range in *. apply andb_prop in Hc as [Hc Hb].
    apply andb_prop in Hc as [Ht _].
    change (_set_throttle (set_steer c input_steer_in_rad)) with (_set_throttle c).
    change (_set_brake (set_steer c input_steer_in_rad)) with (_set_brake c).
    now rewrite set_steer_range, Ht, Hb.
  - unfold commands_in_range in *. apply andb_prop in Hc as [Hc _].
    apply andb_prop in Hc as [Ht Hs].
    change (_set_throttle (set_brake c input_brake)) with (_set_throttle c).
    change (_set_steer (set_brake c input_brake)) with (_set_steer c).
    now rewrite set_brake_range, Ht, Hs.
Qed.

Lemma run_commands_in_range (ms : list method_call) (c : Controller2D) :
  commands_in_range c = true -> commands_in_range (run libm c ms) = true.
Proof.
  revert c. induction ms as [|m ms IH]; intros c Hc; [exact Hc|].
  cbn [run]. apply IH, invoke_commands_in_range, Hc.
Qed.

(** A Cold controller stays Cold, with its commands, under Cold calls. *)
Lemma invoke_cold (c : Controller2D) (m : method_call) :
  cold_call m = true ->
  _start_control_loop c = false ->
  _start_control_loop (state_after (invoke libm c m)) = false
  /\ get_commands (state_after (invoke libm c m)) = get_commands c.
Proof.
  intros Hm Hc. destruct m; try discriminate Hm; cbn [invoke state_after].
  - cbn in Hm |- *. rewrite Hm. now split.
  - now split.
  - destruct (update_desired_speed_cases c) as [(w & _ & H)|H].
    + rewrite (update_controls_cold libm c _ H Hc). now split.
    + rewrite (update_controls_raise libm c c IndexError H). now split.
  - now split.
Qed.

Lemma run_cold (ms : list method_call) (c : Controller2D) :
  forallb cold_call ms = true ->
  _start_control_loop c = false ->
  _start_control_loop (run libm c ms) = false
  /\ get_commands (run libm c ms) = get_commands c
  /\ Forall (fun out => out = get_commands c) (outputs libm c ms).
Proof.
  revert c. induction ms as [|m ms IH]; intros c Hms Hc.
  - repeat split; [exact Hc|constructor].
  - cbn [forallb] in Hms. apply andb_prop in Hms as [Hm Hms].
    destruct (invoke_cold c m Hm Hc) as [Hc' Hout].
    destruct (IH _ Hms Hc') as (H1 & H2 & H3). rewrite Hout in H2, H3.
    cbn [run]. repeat split; [exact H1|exact H2|].
    destruct m; cbn [outputs]; try exact H3.
    constructor; [reflexivity|exact H3].
Qed.

(** One call on a non-empty path returns and advances the persistent
    variables; a Warm one needs a counter that the division by 3 treats
    exactly. *)
Lemma update_controls_advances (c : Controller2D) :
  _waypoints c <> [] ->
  (_start_control_loop c = true -> exact_step (or_default (step (vars c)) 0%Z)) ->
  exists c',
    update_controls libm c = Ok c'
    /\ update_desired_speed c = Ok (assign_desired_speed c (_desired_speed c'))
    /\ vars c' = spec_advance (vars c) (_current_speed c) (_desired_speed c')
    /\ _waypoints c' = _waypoints c
    /\ _start_control_loop c' = _start_control_loop c.
Proof.
  intros Hne Hs.
  destruct (update_desired_speed_nearest c Hne) as (m & w & _ & H & _).
  destruct (_start_control_loop c) eqn:Hflag.
  - destruct (lookahead_waypoint_index _ _ Hne (Hs eq_refl)) as (wl & Hlook & _).
    rewrite (update_controls_warm libm c _ wl H Hflag Hlook).
    eexists. split; [reflexivity|]. now repeat split.
  - rewrite (update_controls_cold libm c _ H Hflag).
    eexists. split; [reflexivity|]. now repeat split.
Qed.

Lemma run_step_count (ms : list method_call) (c : Controller2D) (n : nat) :
  _waypoints c <> [] ->
  nonempty_paths ms = true ->
  or_default (step (vars c)) 0%Z = Z.of_nat n ->
  (Z.of_nat (n + count_update_controls ms) <= 2 ^ 53)%Z ->
  _waypoints (run libm c ms) <> []
  /\ or_default (step (vars (run libm c ms))) 0%Z
     = Z.of_nat (n + count_update_controls ms).
Proof.
  revert c n. induction ms as [|m ms IH]; intros c n Hne Hms Hn Hb.
  - cbn. now rewrite Nat.add_0_r.
  - unfold nonempty_paths in Hms. cbn [forallb] in Hms.
    apply andb_prop in Hms as [Hm Hms]. cbn [run].
    destruct m; cbn [invoke state_after];
      try (apply (IH _ n); [exact Hne|exact Hms|exact Hn|exact Hb]).
    + apply (IH _ n); [|exact Hms|exact Hn|exact Hb].
      destruct new_waypoints; [discriminate Hm|cbn; congruence].
    + unfold count_update_controls in Hb |- *. cbn [filter length] in Hb |- *.
      fold (count_update_controls ms) in Hb |- *.
      assert (Hs : exact_step (or_default (step (vars c)) 0%Z))
        by (unfold exact_step; lia).
      destruct (update_controls_advances c Hne (fun _ => Hs))
        as (c' & -> & _ & Hv & Hw & _).
      cbn [state_after].
      replace (n + S (count_update_controls ms))%nat
        with (S n + count_update_controls ms)%nat in Hb |- * by lia.
      apply IH; [now rewrite Hw|exact Hms| |exact Hb].
      rewrite Hv. cbn. lia.
Qed.

(** ** The timestamp is stored and never read *)

Lemma update_desired_speed_timestamp (c : Controller2D) (t : float) :
  update_desired_speed (with_timestamp c t)
  = outcome_with_timestamp (update_desired_speed c) t.
Proof.
  unfold update_desired_speed.
  change (_waypoints (with_timestamp c t)) with (_waypoints c).
  change (_current_x (with_timestamp c t)) with (_current_x c).
  change (_current_y (with_timestamp c t)) with (_current_y c).
  destruct (nearest_scan _ _ _ _ _ _) as [mi md].
  destruct (if (mi <? _)%Z then _ else _); reflexivity.
Qed.

Lemma update_controls_timestamp (c : Controller2D) (t : float) :
  update_controls libm (with_timestamp c t)
  = outcome_with_timestamp (update_controls libm c) t.
Proof.
  destruct (update_desired_speed_cases c) as [(w & _ & H)|H].
  - assert (Ht : update_desired_speed (with_timestamp c t)
                 = Ok (with_timestamp (assign_desired_speed c (wp_v w)) t))
      by (now rewrite update_desired_speed_timestamp, H).
    destruct (_start_control_loop c) eqn:Hflag.
    + destruct (lookahead_waypoint (_waypoints c) (or_default (step (vars c)) 0%Z))
        as [wl|e] eqn:Hlook.
      * rewrite (update_controls_warm libm c _ wl H Hflag Hlook).
        now rewrite (update_controls_warm libm _ _ wl Ht Hflag Hlook).
      * rewrite (update_controls_warm_raise libm c _ e H Hflag Hlook).
        now rewrite (update_controls_warm_raise libm _ _ e Ht Hflag Hlook).
    + rewrite (update_controls_cold libm c _ H Hflag).
      now rewrite (update_controls_cold libm _ _ Ht Hflag).
  - rewrite (update_controls_raise libm c c IndexError H).
    apply update_controls_raise. now rewrite update_desired_speed_timestamp, H.
Qed.

Lemma with_timestamp_twice (c : Controller2D) (t t' : float) :
  with_timestamp (with_timestamp c t) t' = with_timestamp c t'.
Proof. reflexivity. Qed.

(** Two controllers that agree up to the stored timestamp still do after
    two calls that agree up to the timestamp passed. *)
Lemma invoke_same_but_timestamp (c1 c2 : Controller2D) (m1 m2 : method_call) :
  with_timestamp c1 0 = with_timestamp c2 0 ->
  same_but_timestamp m1 m2 ->
  with_timestamp (state_after (invoke libm c1 m1)) 0
  = with_timestamp (state_after (invoke libm c2 m2)) 0.
Proof.
  intros Hc Hm.
  assert (Hinv : forall c m,
            match m with Update_values _ _ _ _ _ _ => False | _ => True end ->
            with_timestamp (state_after (invoke libm c m)) 0
            = with_timestamp (state_after (invoke libm (with_timestamp c 0) m)) 0).
  { intros c m Hnv. destruct m; try contradiction; cbn [invoke state_after];
      try reflexivity.
    rewrite update_controls_timestamp. now destruct (update_controls libm c). }
  destruct m1, m2; cbn [same_but_timestamp] in Hm; try discriminate Hm;
    try (injection Hm as <-);
    try (rewrite (Hinv c1), (Hinv c2) by exact I; now rewrite Hc).
  destruct Hm as (-> & -> & -> & -> & ->). cbn [invoke state_after].
  unfold update_values, with_timestamp in *. cbn.
  injection Hc; intros.
  repeat match goal with E : _ c1 = _ c2 |- _ => rewrite E; clear E end.
  reflexivity.
Qed.

Lemma outputs_same_but_timestamp (ms1 ms2 : list method_call) :
  Forall2 same_but_timestamp ms1 ms2 ->
  forall c1 c2, with_timestamp c1 0 = with_timestamp c2 0 ->
  outputs libm c1 ms1 = outputs libm c2 ms2.
Proof.
  induction 1 as [|m1 m2 ms1 ms2 Hm _ IH]; intros c1 c2 Hc; [reflexivity|].
  pose proof (invoke_same_but_timestamp c1 c2 m1 m2 Hc Hm) as Hstep.
  destruct m1, m2; cbn [same_but_timestamp] in Hm; try discriminate Hm;
    cbn [outputs]; try (apply IH; exact Hstep).
  f_equal; [|apply IH; exact Hstep].
  unfold get_commands. unfold with_timestamp in Hc. now inversion Hc.
Qed.

End Sequences.

(** ** The claims *)

Section Claims.

Context (libm : MathLib).

(** C1. The three commands are zero on a fresh controller; each setter
    stores a value inside its closed range whatever float it is given
    (NaN and the infinities included); and after any sequence of calls
    (so in particular after any [update_controls]) the stored
    commands satisfy throttle in [0,1], steer in [-1,1], brake in [0,1]. *)
Theorem commands_stay_in_range (waypoints : list waypoint) (ms : list method_call) :
  get_commands (init waypoints) = (0, 0, 0)
  /\ commands_in_range (run libm (init waypoints) ms) = true
  /\ (forall c x, in_range 0 1 (_set_throttle (set_throttle c x)) = true)
  /\ (forall c x, in_range (-1) 1 (_set_steer (set_steer c x)) = true)
  /\ (forall c x, in_range 0 1 (_set_brake (set_brake c x)) = true).
Proof.
  split; [reflexivity|]. split.
  - apply run_commands_in_range. reflexivity.
  - repeat split; intros c x.
    + apply set_throttle_range.
    + apply set_steer_range.
    + apply set_brake_range.
Qed.

(** C2, as the code has it.  With an empty waypoint list
    [update_controls] fails at once, inside [update_desired_speed], with
    Python's own [IndexError] (from [waypoints[-1]]); nothing has been
    assigned by then, and no numeric result is produced. *)
Theorem update_controls_empty_path (c : Controller2D) :
  _waypoints c = [] -> update_controls libm c = Raise IndexError c.
Proof.
  intros H. apply update_controls_raise.
  unfold update_desired_speed. now rewrite H.
Qed.

(** C3. From a fresh controller, as long as every [update_values] so far
    carried frame index 0, the controller is Cold and [get_commands]
    returns exactly (0, 0, 0), however many [update_controls] calls were
    made; every [get_commands] along the way returned (0, 0, 0) too.  A
    further [update_controls] on a non-empty path leaves the commands
    alone, stores as desired speed the target speed of the waypoint nearest
    to the current position (none is strictly closer in computed distance,
    none before it is as close), and advances the persistent state with
    that speed. *)
Theorem cold_commands_stay_zero (waypoints : list waypoint) (ms : list method_call) :
  forallb cold_call ms = true ->
  let c := run libm (init waypoints) ms in
  _start_control_loop c = false
  /\ get_commands c = (0, 0, 0)
  /\ Forall (fun out => out = (0, 0, 0)) (outputs libm (init waypoints) ms)
  /\ (_waypoints c <> [] ->
      exists c' m w,
        update_controls libm c = Ok c'
        /\ get_commands c' = (0, 0, 0)
        /\ nth_error (_waypoints c) m = Some w
        /\ _desired_speed c' = wp_v w
        /\ (forall j wj, nth_error (_waypoints c) j = Some wj ->
              (waypoint_dist (_current_x c) (_current_y c) wj
               <? waypoint_dist (_current_x c) (_current_y c) w) = false)
        /\ (forall j wj, (j < m)%nat -> nth_error (_waypoints c) j = Some wj ->
              (waypoint_dist (_current_x c) (_current_y c) wj
               <=? waypoint_dist (_current_x c) (_current_y c) w) = false)
        /\ update_desired_speed c = Ok (assign_desired_speed c (wp_v w))
        /\ vars c' = spec_advance (vars c) (_current_speed c) (wp_v w)).
Proof.
  intros Hms c.
  destruct (run_cold libm ms (init waypoints) Hms eq_refl) as (Hflag & Hcmd & Hout).
  fold c in Hflag, Hcmd. change (get_commands (init waypoints)) with (0, 0, 0) in *.
  repeat split; try assumption.
  intros Hne.
  destruct (update_desired_speed_nearest c Hne) as (m & w & Hw & H & Hmin & Hfirst).
  rewrite (update_controls_cold libm c _ H Hflag).
  eexists _, m, w. split; [reflexivity|]. repeat split; assumption.
Qed.

(** C4. In the Warm state, on a non-empty path, [update_controls] stores as
    throttle the clamp to [0,1] of
    (0.6*(v_d - v) + 1.0*(v - previous_speed) + 0.01*accumulated_speed_error)
    / (16.25/2/5), with [v_d] the desired speed of this tick, [v] the current
    speed, and the two persistent values as they stood before the call; the
    correction term is the raw speed delta.  The brake stored is 0.  (When
    the fraction is NaN there is nothing to clamp: the throttle is 1.)  The
    step counter is one that binary64 holds exactly, from 0 to 2^53 - 1. *)
Theorem warm_throttle (c : Controller2D) :
  _start_control_loop c = true ->
  _waypoints c <> [] ->
  (0 <= or_default (step (vars c)) 0 < 2 ^ 53)%Z ->
  exists c',
    update_controls libm c = Ok c'
    /\ let fraction :=
         spec_throttle_fraction (_desired_speed c') (_current_speed c)
           (or_default (v_previous (vars c)) 0)
           (or_default (v_diff_previous (vars c)) 0) in
       (is_nan fraction = false -> _set_throttle c' = clamp 0 1 fraction)
       /\ (is_nan fraction = true -> _set_throttle c' = 1)
       /\ _set_brake c' = 0.
Proof.
  intros Hflag Hne Hs.
  destruct (update_desired_speed_nearest c Hne) as (m & w & _ & H & _).
  destruct (lookahead_waypoint_index _ _ Hne Hs) as (wl & Hlook & _).
  rewrite (update_controls_warm libm c _ wl H Hflag Hlook).
  eexists. split; [reflexivity|]. cbv zeta. repeat split.
  - intros Hnan. exact (throttle_clamp _ Hnan).
  - intros Hnan. exact (throttle_of_nan _ Hnan).
Qed.

(** C5. In the Warm state, on a non-empty path, the steering angle that
    [update_controls] computes is the result of the pipeline of section 4.4:
    [-yaw - pi/2] snapped to 0 inside the 0.05 band; [atan2] with the x
    difference first; velocity floored at 10; [atan(2*3*sin(alpha) /
    (0.8*velocity))]; 0 while [step < 100]; the clamp to [-0.3, 0.3]; the
    final snap to 0.  The stored command is that angle converted and
    clamped by [set_steer], and both are exactly 0 while [step < 100].  The
    step counter is one that binary64 holds exactly, from 0 to 2^53 - 1. *)
Theorem warm_steer_pipeline (c : Controller2D) :
  _start_control_loop c = true ->
  _waypoints c <> [] ->
  (0 <= or_default (step (vars c)) 0 < 2 ^ 53)%Z ->
  exists wl c',
    lookahead_waypoint (_waypoints c) (or_default (step (vars c)) 0%Z) = Success wl
    /\ update_controls libm c = Ok c'
    /\ let angle :=
         spec_steer_angle libm (_current_x c) (_current_y c) (_current_yaw c)
           (_desired_speed c') (wp_x wl) (wp_y wl) (or_default (step (vars c)) 0%Z) in
       lateral_steer_angle libm (_current_x c) (_current_y c) (_current_yaw c)
         (_desired_speed c') wl (or_default (step (vars c)) 0%Z) = angle
       /\ _set_steer c' = spec_steer_command angle
       /\ ((or_default (step (vars c)) 0 < 100)%Z -> angle = 0 /\ _set_steer c' = 0).
Proof.
  intros Hflag Hne Hs.
  destruct (update_desired_speed_nearest c Hne) as (m & w & _ & H & _).
  destruct (lookahead_waypoint_index _ _ Hne Hs) as (wl & Hlook & _).
  exists wl. rewrite (update_controls_warm libm c _ wl H Hflag Hlook).
  eexists. split; [exact Hlook|]. split; [reflexivity|]. cbv zeta.
  cbn [_set_steer set_brake set_steer assign_vars assign_steer assign_brake
       _desired_speed assign_desired_speed set_throttle assign_throttle vars].
  split; [apply lateral_steer_angle_spec|].
  split; [now rewrite lateral_steer_angle_spec|].
  intros Hlt. rewrite lateral_steer_angle_spec.
  assert (E : spec_steer_angle libm (_current_x c) (_current_y c) (_current_yaw c)
                (wp_v w) (wp_x wl) (wp_y wl) (or_default (step (vars c)) 0%Z) = 0).
  { unfold spec_steer_angle. apply Z.ltb_lt in Hlt. now rewrite Hlt. }
  rewrite E. split; reflexivity.
Qed.

(** C6, as the code has it.  The distances compared are the binary64
    values [np.linalg.norm] returns, not the exact Euclidean ones.  On a
    non-empty path the desired speed that [update_controls] computes is the
    target speed of a waypoint whose computed distance from the current
    position is least (no waypoint has a strictly smaller computed
    distance), and of the first such waypoint (no earlier waypoint has a
    computed distance as small); when that waypoint is the last one, it is
    the last waypoint's target speed. *)
Theorem desired_speed_is_nearest (c : Controller2D) :
  _waypoints c <> [] ->
  exists m w,
    nth_error (_waypoints c) m = Some w
    /\ update_desired_speed c = Ok (assign_desired_speed c (wp_v w))
    /\ _desired_speed (state_after (update_controls libm c)) = wp_v w
    /\ (forall j wj, nth_error (_waypoints c) j = Some wj ->
          (waypoint_dist (_current_x c) (_current_y c) wj
           <? waypoint_dist (_current_x c) (_current_y c) w) = false)
    /\ (forall j wj, (j < m)%nat -> nth_error (_waypoints c) j = Some wj ->
          (waypoint_dist (_current_x c) (_current_y c) wj
           <=? waypoint_dist (_current_x c) (_current_y c) w) = false)
    /\ (S m = length (_waypoints c) ->
        forall d, wp_v w = wp_v (last (_waypoints c) d)).
Proof.
  intros Hne.
  destruct (update_desired_speed_nearest c Hne) as (m & w & Hw & H & Hmin & Hfirst).
  exists m, w. repeat split; try assumption.
  - destruct (_start_control_loop c) eqn:Hflag.
    + destruct (lookahead_waypoint (_waypoints c) (or_default (step (vars c)) 0%Z))
        as [wl|e] eqn:Hlook.
      * now rewrite (update_controls_warm libm c _ wl H Hflag Hlook).
      * now rewrite (update_controls_warm_raise libm c _ e H Hflag Hlook).
    + now rewrite (update_controls_cold libm c _ H Hflag).
  - intros Hm d. f_equal.
    destruct (exists_last Hne) as (l & a & E). rewrite E in *.
    rewrite last_last. rewrite length_app in Hm. cbn in Hm.
    rewrite nth_error_app2 in Hw by lia.
    replace (m - length l)%nat with 0%nat in Hw by lia. cbn in Hw. congruence.
Qed.


(** C8. Whatever calls came before (on non-empty paths), the step counter
    equals the number of [update_controls] calls made so far: creation
    never resets it.  The next [update_controls], Cold or Warm, returns
    and advances the persistent state exactly once: [previous_speed] becomes
    the current speed [v], [accumulated_speed_error] becomes
    [accumulated_speed_error + (v_d - v)] with no reset and no clamp, and
    [step] becomes [step + 1].  The sequence holds fewer than 2^53
    [update_controls] calls, so that every counter value met is one the
    division by 3 treats exactly. *)
Theorem persistent_state_advances (waypoints : list waypoint) (ms : list method_call) :
  waypoints <> [] ->
  nonempty_paths ms = true ->
  (Z.of_nat (count_update_controls ms) < 2 ^ 53)%Z ->
  let c := run libm (init waypoints) ms in
  create_var (step (vars c)) 0%Z = Some (Z.of_nat (count_update_controls ms))
  /\ exists c',
       update_controls libm c = Ok c'
       /\ v_previous (vars c') = Some (_current_speed c)
       /\ v_diff_previous (vars c')
          = Some (or_default (v_diff_previous (vars c)) 0
                  + (_desired_speed c' - _current_speed c))
       /\ step (vars c') = Some (Z.of_nat (count_update_controls ms) + 1)%Z.
Proof.
  intros Hne Hms Hb c.
  destruct (run_step_count libm ms (init waypoints) 0 Hne Hms eq_refl
              ltac:(cbn [Nat.add]; lia)) as [Hne' Hn].
  fold c in Hne', Hn. cbn [Nat.add] in Hn.
  split; [now rewrite create_var_or_default, Hn|].
  assert (Hs : exact_step (or_default (step (vars c)) 0%Z))
    by (unfold exact_step; lia).
  destruct (update_controls_advances libm c Hne' (fun _ => Hs))
    as (c' & Hc' & _ & Hv & _).
  exists c'. split; [exact Hc'|]. rewrite Hv. cbn. now rewrite Hn.
Qed.

(** C9. Two fresh controllers given call sequences that agree in
    everything except the timestamps passed to [update_values] (equal
    sequences in particular) return identical values, float for float,
    from every [get_commands]: the controller is deterministic and the
    timestamp influences no output. *)
Theorem outputs_deterministic (waypoints : list waypoint) (ms1 ms2 : list method_call) :
  Forall2 same_but_timestamp ms1 ms2 ->
  outputs libm (init waypoints) ms1 = outputs libm (init waypoints) ms2.
Proof.
  intros H. now apply outputs_same_but_timestamp.
Qed.

End Claims.

(** ** The bound on the steering command *)

Lemma steer_limit_of_nan (s : float) : is_nan s = true -> steer_limit s = s.
Proof.
  intros Hs. unfold steer_limit, np_abs.
  destruct (0.3 <? s) eqn:Hhi; [now rewrite (ltb_is_nan_r _ _ Hhi) in Hs|].
  destruct (s <? -0.3) eqn:Hlo; [now rewrite (ltb_is_nan_l _ _ Hlo) in Hs|].
  destruct (abs s <? 0.05) eqn:Hband; [|reflexivity].
  pose proof (ltb_is_nan_l _ _ Hband) as Habs.
  destruct (is_nan (abs s)) eqn:E; [discriminate|].
  assert (Prim2SF (abs s) = S754_nan) as F.
  { rewrite abs_spec. apply Prim2SF_nan in Hs. now rewrite Hs. }
  apply Prim2SF_nan in F. congruence.
Qed.

Lemma steer_limit_in_range (s : float) :
  is_nan (steer_limit s) = false -> in_range (-0.3) 0.3 (steer_limit s) = true.
Proof.
  intros H. apply steer_limit_range.
  destruct (is_nan s) eqn:Hs; [|reflexivity].
  now rewrite (steer_limit_of_nan s Hs), Hs in H.
Qed.

(** After the limit and the dead band the angle is NaN, zero, or of
    magnitude between 0.05 and 0.3 rad. *)
Lemma steer_limit_cases (s : float) :
  is_nan (steer_limit s) = false ->
  steer_limit s = 0
  \/ (in_range (-0.3) 0.3 (steer_limit s) = true
      /\ (np_abs (steer_limit s) <? 0.05) = false).
Proof.
  intros Hnan. pose proof (steer_limit_in_range s Hnan) as Hr.
  revert Hnan Hr. unfold steer_limit. cbv zeta.
  set (a := if 0.3 <? s then 0.3 else if s <? -0.3 then -0.3 else s).
  destruct (np_abs a <? 0.05) eqn:Hband; intros Hnan Hr.
  - left. reflexivity.
  - right. split; [exact Hr|exact Hband].
Qed.

(** The command [set_steer] stores for an angle that passed the limit and
    the dead band: the product itself, within [max_steer_command]. *)
Lemma set_steer_of_limited (c : Controller2D) (a : float) :
  in_range (-0.3) 0.3 a = true ->
  (np_abs a <? 0.05) = false \/ a = 0 ->
  _set_steer (set_steer c a) = _conv_rad_to_steer * a
  /\ in_range (- max_steer_command) max_steer_command (_set_steer (set_steer c a)) = true.
Proof.
  intros Hr Hband.
  assert (Hb : in_range (- max_steer_command) max_steer_command
                 (_conv_rad_to_steer * a) = true).
  { destruct Hband as [Hband| ->]; [|reflexivity].
    exact (mul_conv_in_range a Hr Hband). }
  assert (E : _set_steer (set_steer c a) = _conv_rad_to_steer * a).
  { cbn [set_steer assign_steer _set_steer]. apply np_clamp_id.
    unfold in_range in *. apply andb_prop in Hb as [Hlo Hhi].
    rewrite (leb_trans (-1) (- max_steer_command) _ eq_refl Hlo).
    now rewrite (leb_trans _ max_steer_command 1 Hhi eq_refl). }
  split; [exact E|]. rewrite E. exact Hb.
Qed.

(** C10. In a Warm [update_controls] call on a non-empty path, with a step
    counter from 0 to 2^53 - 1 and a steering angle that is not NaN (finite
    inputs do not produce one), the angle handed to [set_steer] lies in
    [-0.3, 0.3] rad, the binary64 command stored is the product of that
    angle with 180/70/pi itself (the clamp to [-1, 1] inside [set_steer]
    returns its argument), and its magnitude is at most the binary64
    product of 180/70/pi with 0.3, which lies between 0.2455 and 0.2456 and
    below 1. *)
Theorem steer_command_bound (libm : MathLib) (c : Controller2D) :
  _start_control_loop c = true ->
  _waypoints c <> [] ->
  (0 <= or_default (step (vars c)) 0 < 2 ^ 53)%Z ->
  exists wl c',
    lookahead_waypoint (_waypoints c) (or_default (step (vars c)) 0%Z) = Success wl
    /\ update_controls libm c = Ok c'
    /\ (let angle :=
          lateral_steer_angle libm (_current_x c) (_current_y c) (_current_yaw c)
            (_desired_speed c') wl (or_default (step (vars c)) 0%Z) in
        is_nan angle = false ->
        in_range (-0.3) 0.3 angle = true
        /\ _set_steer c' = _conv_rad_to_steer * angle
        /\ in_range (- max_steer_command) max_steer_command (_set_steer c') = true)
    /\ in_range 0.2455 0.2456 max_steer_command = true
    /\ (max_steer_command <? 1) = true.
Proof.
  intros Hflag Hne Hs.
  destruct (update_desired_speed_nearest c Hne) as (m & w & _ & H & _).
  destruct (lookahead_waypoint_index _ _ Hne Hs) as (wl & Hlook & _).
  exists wl. rewrite (update_controls_warm libm c _ wl H Hflag Hlook).
  eexists. split; [exact Hlook|]. split; [reflexivity|].
  split; [|split; reflexivity]. cbv zeta.
  cbn [_desired_speed set_brake set_steer set_throttle assign_vars assign_steer
       assign_brake assign_throttle assign_desired_speed].
  unfold lateral_steer_angle. cbv zeta.
  set (s := if (or_default (step (vars c)) 0 <? 100)%Z then 0 else _).
  intros Hnan. pose proof (steer_limit_in_range s Hnan) as Hr.
  split; [exact Hr|].
  assert (Hband : (np_abs (steer_limit s) <? 0.05) = false \/ steer_limit s = 0).
  { destruct (steer_limit_cases s Hnan) as [E|[_ Hb]]; [right; exact E|left; exact Hb]. }
  destruct (set_steer_of_limited c (steer_limit s) Hr Hband) as [E Hb].
  cbn [set_steer assign_steer _set_steer] in E, Hb.
  split; [exact E|exact Hb].
Qed.

(** The commands [set_steer] stores for the two extreme angles. *)
Example set_steer_extremes (c : Controller2D) :
  _set_steer (set_steer c 0.3) = max_steer_command
  /\ _set_steer (set_steer c (-0.3)) = - max_steer_command
  /\ max_steer_command = 0.24555334077035282.
Proof. repeat split; reflexivity. Qed.

(** [int(step / 3)] through the primitive binary64 operations. *)
Example int_truediv_binary64 :
  forallb (fun s => match int_of_float (float_of_int s / 3), int_truediv s 3 with
                    | Some q, Success q' => (q =? q')%Z
                    | _, _ => false
                    end)
          (map Z.of_nat (seq 0 (Z.to_nat 10000))) = true.
Proof. vm_compute. reflexivity. Qed.

(** From 2^53 on the rounded quotient need not truncate to the integer
    quotient, and a quotient beyond the binary64 range raises. *)
Example int_truediv_beyond_2_53 :
  int_truediv (3 * 2 ^ 52 + 2) 3 = Success (2 ^ 52 + 1)%Z
  /\ ((3 * 2 ^ 52 + 2) / 3 = 2 ^ 52)%Z
  /\ int_truediv (10 ^ 400) 3 = Failure OverflowError
  /\ int_truediv 7 0 = Failure ZeroDivisionError.
Proof. repeat split; vm_compute; reflexivity. Qed.

(** ** The claims on the samples *)

Ltac by_evaluation :=
  first [ reflexivity | vm_compute; reflexivity | vm_compute; discriminate
        | vm_compute; lia | vm_compute; split; [discriminate|reflexivity] ].

(** The examples of the specification's section 8. *)
Example nearest_waypoint_example :
  update_desired_speed sample_warm = Ok (assign_desired_speed sample_warm 8).
Proof. reflexivity. Qed.

Example tie_break_example :
  state_after
    (update_desired_speed
       (update_values (init [Waypoint 0 0 5; Waypoint 2 0 8]) 1 0 0 0 0 0%Z))
  = assign_desired_speed
      (update_values (init [Waypoint 0 0 5; Waypoint 2 0 8]) 1 0 0 0 0 0%Z) 5.
Proof. reflexivity. Qed.

Example last_waypoint_example :
  _desired_speed
    (state_after
       (update_desired_speed (update_values (init sample_path) 500 0 0 0 0 0%Z)))
  = 3.
Proof. reflexivity. Qed.

(** A NaN angle reaches [set_steer] as NaN and is stored as 1. *)
Example set_steer_of_nan : get_commands (set_steer (init []) nan) = (0, 1, 0).
Proof. reflexivity. Qed.

(** C2, as stated, fails on the empty path: the error raised is
    [IndexError] itself, not an error distinct from it. *)
Lemma empty_path_counterexample :
  ~ (exists e c', e <> IndexError
                  /\ update_controls poly_libm (init []) = Raise e c').
Proof.
  intros (e & c' & Hne & H). vm_compute in H.
  injection H as He _. exact (Hne (eq_sym He)).
Qed.

(** Where the squares overflow the computed distances say nothing: from
    the origin both distances of [sample_far_path] are infinite, the scan
    keeps index 0 and the desired speed is 5, while the waypoint at the
    least Euclidean distance is the second one, whose target speed is 8. *)
Example far_path_example :
  waypoint_dist 0 0 (Waypoint 2e200 0 5) = infinity
  /\ waypoint_dist 0 0 (Waypoint 1e200 0 8) = infinity
  /\ update_desired_speed (init sample_far_path)
     = Ok (assign_desired_speed (init sample_far_path) 5)
  /\ euclid_nearest_first 0 0 sample_far_path 1.
Proof.
  split; [reflexivity|]. split; [reflexivity|]. split; [reflexivity|].
  unfold euclid_nearest_first. cbn [sample_far_path nth_error]. split.
  - intros j wj Hj. destruct j as [|[|j]]; cbn [nth_error] in Hj.
    + injection Hj as <-. vm_compute. reflexivity.
    + injection Hj as <-. vm_compute. reflexivity.
    + destruct j; discriminate Hj.
  - intros j wj Hlt Hj. destruct j as [|j]; [|lia]. cbn [nth_error] in Hj.
    injection Hj as <-. vm_compute. reflexivity.
Qed.

(** Two waypoints at exactly the same Euclidean distance need not tie in
    computed distance: the fused dot product rounds the two squares
    differently, and the later mirror image wins. *)
Example mirror_waypoints_example :
  QArith_base.Qeq_bool (euclid_sq 0 0 (Waypoint 0.4 0.1 5))
    (euclid_sq 0 0 (Waypoint 0.1 0.4 8)) = true
  /\ (waypoint_dist 0 0 (Waypoint 0.1 0.4 8) <? waypoint_dist 0 0 (Waypoint 0.4 0.1 5))
     = true
  /\ update_desired_speed (init sample_mirror_path)
     = Ok (assign_desired_speed (init sample_mirror_path) 8).
Proof. repeat split; vm_compute; reflexivity. Qed.

(** C6, as stated, fails on [sample_far_path] seen from the origin: the
    desired speed stored is not the target speed of the waypoint at the
    least Euclidean distance, first among equals. *)
Lemma nearest_euclidean_counterexample :
  ~ (exists m w,
       nth_error (_waypoints (init sample_far_path)) m = Some w
       /\ euclid_nearest_first (_current_x (init sample_far_path))
            (_current_y (init sample_far_path)) (_waypoints (init sample_far_path)) m
       /\ update_desired_speed (init sample_far_path)
          = Ok (assign_desired_speed (init sample_far_path) (wp_v w))).
Proof.
  intros (m & w & Hw & Hnear & Hupd).
  cbn [init _waypoints _current_x _current_y] in Hw, Hnear.
  destruct m as [|[|m]].
  - unfold euclid_nearest_first in Hnear. cbn [sample_far_path nth_error] in Hnear.
    destruct Hnear as [Hmin _].
    specialize (Hmin 1%nat (Waypoint 1e200 0 8) eq_refl).
    vm_compute in Hmin. discriminate Hmin.
  - cbn [sample_far_path nth_error] in Hw. injection Hw as <-.
    apply (f_equal (fun o => _desired_speed (state_after o) =? 5)) in Hupd.
    vm_compute in Hupd. discriminate Hupd.
  - cbn [sample_far_path nth_error] in Hw. destruct m; discriminate Hw.
Qed.


(** What the call does instead. *)
Example lookahead_overflow_example :
  lookahead_waypoint sample_path (10 ^ 400) = Failure OverflowError
  /\ exists c',
       update_controls poly_libm (with_step sample_warm (10 ^ 400))
       = Raise OverflowError c'
       /\ get_commands c' = (0, 0, 0).
Proof.
  split; [vm_compute; reflexivity|].
  eexists. split; [vm_compute; reflexivity|reflexivity].
Qed.

Lemma update_controls_empty_path_witness :
  update_controls poly_libm (init []) = Raise IndexError (init []).
Proof. exact (update_controls_empty_path poly_libm (init []) eq_refl). Defined.

Lemma cold_commands_stay_zero_witness :
  forallb cold_call sample_cold_calls = true
  /\ get_commands (run poly_libm (init sample_path) sample_cold_calls) = (0, 0, 0)
  /\ Forall (fun out => out = (0, 0, 0))
       (outputs poly_libm (init sample_path) sample_cold_calls)
  /\ exists c',
       update_controls poly_libm (run poly_libm (init sample_path) sample_cold_calls)
       = Ok c'
       /\ get_commands c' = (0, 0, 0)
       /\ _desired_speed c' = 8
       /\ step (vars c') = Some 3%Z.
Proof.
  split; [reflexivity|].
  destruct (cold_commands_stay_zero poly_libm sample_path sample_cold_calls eq_refl)
    as (_ & Hcmd & Hout & Hnext).
  split; [exact Hcmd|]. split; [exact Hout|].
  destruct (Hnext ltac:(by_evaluation))
    as (c' & m & w & Hc' & Hcmd' & _ & Hspeed & _ & _ & Hupd & Hvars).
  exists c'. split; [exact Hc'|]. split; [exact Hcmd'|].
  split.
  - rewrite Hspeed. vm_compute in Hupd. injection Hupd as E. symmetry. exact E.
  - rewrite Hvars. reflexivity.
Defined.

Lemma warm_throttle_witness :
  _start_control_loop sample_warm = true
  /\ exists c',
       update_controls poly_libm sample_warm = Ok c'
       /\ _set_throttle c' = clamp 0 1 (spec_throttle_fraction 8 4 0 0)
       /\ _set_brake c' = 0.
Proof.
  split; [reflexivity|].
  destruct (warm_throttle poly_libm sample_warm
              ltac:(by_evaluation) ltac:(by_evaluation) ltac:(by_evaluation))
    as (c' & Hc' & Hthr & _ & Hbrake).
  exists c'. split; [exact Hc'|]. split; [|exact Hbrake].
  assert (E : _desired_speed c' = 8).
  { pose proof Hc' as H. vm_compute in H. injection H as <-. reflexivity. }
  rewrite E in Hthr. apply Hthr. reflexivity.
Defined.

Lemma warm_steer_pipeline_witness :
  _start_control_loop sample_cruising = true
  /\ step (vars sample_cruising) = Some 100%Z
  /\ exists c',
       update_controls poly_libm sample_cruising = Ok c'
       /\ _set_steer c'
          = spec_steer_command
              (spec_steer_angle poly_libm 9 0 (- (np_pi / 2)) 8 20 0 100).
Proof.
  split; [by_evaluation|]. split; [by_evaluation|].
  destruct (warm_steer_pipeline poly_libm sample_cruising
              ltac:(by_evaluation) ltac:(by_evaluation) ltac:(by_evaluation))
    as (wl & c' & Hlook & Hc' & _ & Hsteer & _).
  exists c'. split; [exact Hc'|].
  assert (El : wl = Waypoint 20 0 3).
  { pose proof Hlook as H. vm_compute in H. injection H as <-. reflexivity. }
  assert (E : _desired_speed c' = 8).
  { pose proof Hc' as H. vm_compute in H. injection H as <-. reflexivity. }
  rewrite E, El in Hsteer. exact Hsteer.
Defined.

Lemma desired_speed_is_nearest_witness :
  _desired_speed (state_after (update_controls poly_libm sample_warm)) = 8.
Proof.
  destruct (desired_speed_is_nearest poly_libm sample_warm ltac:(by_evaluation))
    as (m & w & _ & H & Hspeed & _).
  rewrite Hspeed. vm_compute in H. injection H as E. symmetry. exact E.
Defined.


Lemma persistent_state_advances_witness :
  create_var (step (vars (run poly_libm (init sample_path) (sample_drive 0.05 0.1)))) 0%Z
  = Some 2%Z.
Proof.
  exact (proj1 (persistent_state_advances poly_libm sample_path (sample_drive 0.05 0.1)
                  ltac:(discriminate) eq_refl eq_refl)).
Defined.

Lemma outputs_deterministic_witness :
  outputs poly_libm (init sample_path) (sample_drive 0.05 0.1)
  = outputs poly_libm (init sample_path) (sample_drive 7 9).
Proof.
  apply outputs_deterministic. unfold sample_drive.
  repeat constructor.
Defined.

Lemma steer_command_bound_witness :
  _start_control_loop sample_cruising = true
  /\ exists c',
       update_controls poly_libm sample_cruising = Ok c'
       /\ _set_steer c'
          = _conv_rad_to_steer
            * lateral_steer_angle poly_libm 9 0 (- (np_pi / 2)) 8 (Waypoint 20 0 3) 100
       /\ in_range (- max_steer_command) max_steer_command (_set_steer c') = true.
Proof.
  split; [by_evaluation|].
  destruct (steer_command_bound poly_libm sample_cruising
              ltac:(by_evaluation) ltac:(by_evaluation) ltac:(by_evaluation))
    as (wl & c' & Hlook & Hc' & Hsteer & _).
  exists c'. split; [exact Hc'|].
  assert (El : wl = Waypoint 20 0 3).
  { pose proof Hlook as H. vm_compute in H. injection H as <-. reflexivity. }
  assert (E : _desired_speed c' = 8).
  { pose proof Hc' as H. vm_compute in H. injection H as <-. reflexivity. }
  cbv zeta in Hsteer. rewrite E, El in Hsteer.
  destruct (Hsteer ltac:(by_evaluation)) as (_ & Hcmd & Hb).
  split; [exact Hcmd|exact Hb].
Defined.

(** * Further properties of the code *)

(** ** NaN through the arithmetic *)

Lemma is_nan_Prim2SF (x : float) : is_nan x = true -> Prim2SF x = S754_nan.
Proof. apply Prim2SF_nan. Qed.

Lemma sub_nan_l (x y : float) : is_nan x = true -> is_nan (x - y) = true.
Proof.
  intros H. apply Prim2SF_nan. rewrite sub_spec, (is_nan_Prim2SF x H).
  now destruct (Prim2SF y).
Qed.

Lemma sub_nan_r (x y : float) : is_nan y = true -> is_nan (x - y) = true.
Proof.
  intros H. apply Prim2SF_nan. rewrite sub_spec, (is_nan_Prim2SF y H).
  now destruct (Prim2SF x).
Qed.

Lemma add_nan_l (x y : float) : is_nan x = true -> is_nan (x + y) = true.
Proof.
  intros H. apply Prim2SF_nan. rewrite add_spec, (is_nan_Prim2SF x H).
  now destruct (Prim2SF y).
Qed.

Lemma add_nan_r (x y : float) : is_nan y = true -> is_nan (x + y) = true.
Proof. intros H. rewrite add_comm. now apply add_nan_l. Qed.

Lemma mul_nan_l (x y : float) : is_nan x = true -> is_nan (x * y) = true.
Proof.
  intros H. apply Prim2SF_nan. rewrite mul_spec, (is_nan_Prim2SF x H).
  now destruct (Prim2SF y).
Qed.

Lemma mul_nan_r (x y : float) : is_nan y = true -> is_nan (x * y) = true.
Proof.
  intros H. apply Prim2SF_nan. rewrite mul_spec, (is_nan_Prim2SF y H).
  now destruct (Prim2SF x).
Qed.

Lemma div_nan_l (x y : float) : is_nan x = true -> is_nan (x / y) = true.
Proof.
  intros H. apply Prim2SF_nan. rewrite div_spec, (is_nan_Prim2SF x H).
  now destruct (Prim2SF y).
Qed.

Lemma sqrt_nan (x : float) : is_nan x = true -> is_nan (sqrt x) = true.
Proof.
  intros H. apply Prim2SF_nan. now rewrite sqrt_spec, (is_nan_Prim2SF x H).
Qed.

Lemma abs_nan (x : float) : is_nan (abs x) = is_nan x.
Proof.
  destruct (is_nan x) eqn:H.
  - apply Prim2SF_nan. now rewrite abs_spec, (is_nan_Prim2SF x H).
  - destruct (is_nan (abs x)) eqn:E; [|reflexivity].
    apply Prim2SF_nan in E. rewrite abs_spec in E.
    destruct (Prim2SF x) eqn:Ex; try discriminate.
    apply Prim2SF_nan in Ex. congruence.
Qed.

Lemma ltb_nan_l (x y : float) : is_nan x = true -> (x <? y) = false.
Proof.
  intros H. destruct (x <? y) eqn:E; [|reflexivity].
  now rewrite (ltb_is_nan_l _ _ E) in H.
Qed.

Lemma ltb_nan_r (x y : float) : is_nan y = true -> (x <? y) = false.
Proof.
  intros H. destruct (x <? y) eqn:E; [|reflexivity].
  now rewrite (ltb_is_nan_r _ _ E) in H.
Qed.

Lemma leb_nan_l (x y : float) : is_nan x = true -> (x <=? y) = false.
Proof.
  intros H. destruct (x <=? y) eqn:E; [|reflexivity].
  now rewrite (leb_is_nan_l _ _ E) in H.
Qed.

(** ** The setters saturate *)

Lemma np_clamp_above (lo hi x : float) :
  (lo <=? hi) = true -> (hi <? x) = true -> np_fmax (np_fmin x hi) lo = hi.
Proof.
  intros Hlh Hx. unfold np_fmax, np_fmin.
  rewrite (ltb_not_leb _ _ Hx), (leb_is_nan_r _ _ Hlh). cbn [orb].
  now rewrite Hlh.
Qed.

Lemma np_clamp_below (lo hi x : float) :
  (lo <=? hi) = true -> (x <? lo) = true -> np_fmax (np_fmin x hi) lo = lo.
Proof.
  intros Hlh Hx. unfold np_fmax, np_fmin.
  rewrite (ltb_leb_incl _ _ (ltb_leb_trans _ _ _ Hx Hlh)). cbn [orb].
  now rewrite (ltb_not_leb _ _ Hx), (leb_is_nan_l _ _ Hlh).
Qed.

Lemma np_clamp_nan (lo hi x : float) :
  (lo <=? hi) = true -> is_nan x = true -> np_fmax (np_fmin x hi) lo = hi.
Proof.
  intros Hlh Hx. unfold np_fmax, np_fmin.
  rewrite (leb_nan_l _ _ Hx), (leb_is_nan_r _ _ Hlh). cbn [orb].
  now rewrite Hlh.
Qed.

Lemma np_clamp_idempotent (lo hi x : float) :
  (lo <=? hi) = true ->
  np_fmax (np_fmin (np_fmax (np_fmin x hi) lo) hi) lo = np_fmax (np_fmin x hi) lo.
Proof. intros Hlh. apply np_clamp_id, np_clamp_in_range, Hlh. Qed.

(** X1. [set_throttle] and [set_brake] never fail: a value inside [0, 1] is
    stored as it is, a value above 1 as 1, a value below 0 as 0; storing
    the stored value again changes nothing. *)
Theorem set_throttle_brake_saturate (c : Controller2D) (x : float) :
  (in_range 0 1 x = true ->
     _set_throttle (set_throttle c x) = x /\ _set_brake (set_brake c x) = x)
  /\ ((1 <? x) = true ->
     _set_throttle (set_throttle c x) = 1 /\ _set_brake (set_brake c x) = 1)
  /\ ((x <? 0) = true ->
     _set_throttle (set_throttle c x) = 0 /\ _set_brake (set_brake c x) = 0)
  /\ set_throttle (set_throttle c x) (_set_throttle (set_throttle c x))
     = set_throttle c x
  /\ set_brake (set_brake c x) (_set_brake (set_brake c x)) = set_brake c x.
Proof.
  repeat split; intros; cbn [set_throttle set_brake assign_throttle assign_brake
                             _set_throttle _set_brake].
  - now apply np_clamp_id.
  - now apply np_clamp_id.
  - now apply np_clamp_above.
  - now apply np_clamp_above.
  - now apply np_clamp_below.
  - now apply np_clamp_below.
  - unfold set_throttle, assign_throttle. cbn.
    now rewrite (np_clamp_idempotent 0 1 x eq_refl).
  - unfold set_brake, assign_brake. cbn.
    now rewrite (np_clamp_idempotent 0 1 x eq_refl).
Qed.

(** X2. [set_steer] multiplies by 180/70/pi and saturates at -1 and 1: the
    product is stored as it is inside [-1, 1], as 1 above, as -1 below. *)
Theorem set_steer_saturates (c : Controller2D) (rad : float) :
  (in_range (-1) 1 (_conv_rad_to_steer * rad) = true ->
     _set_steer (set_steer c rad) = _conv_rad_to_steer * rad)
  /\ ((1 <? _conv_rad_to_steer * rad) = true -> _set_steer (set_steer c rad) = 1)
  /\ ((_conv_rad_to_steer * rad <? -1) = true -> _set_steer (set_steer c rad) = -1).
Proof.
  repeat split; intros; cbn [set_steer assign_steer _set_steer].
  - now apply np_clamp_id.
  - now apply (np_clamp_above (-1) 1).
  - now apply (np_clamp_below (-1) 1).
Qed.

Lemma set_steer_of_nan_angle (c : Controller2D) (x : float) :
  is_nan x = true -> _set_steer (set_steer c x) = 1.
Proof.
  intros H. cbn [set_steer assign_steer _set_steer].
  apply (np_clamp_nan (-1) 1); [reflexivity|]. now apply mul_nan_r.
Qed.

(** X3. A NaN handed to a setter is stored as the upper bound 1:
    [np.fmin(nan, 1.0)] is 1.0. *)
Theorem setters_store_one_for_nan (c : Controller2D) (x : float) :
  is_nan x = true ->
  _set_throttle (set_throttle c x) = 1
  /\ _set_steer (set_steer c x) = 1
  /\ _set_brake (set_brake c x) = 1.
Proof.
  intros H. repeat split; cbn [set_throttle set_steer set_brake assign_throttle
                               assign_steer assign_brake _set_throttle _set_steer
                               _set_brake].
  - now apply np_clamp_nan.
  - now apply (set_steer_of_nan_angle c).
  - now apply np_clamp_nan.
Qed.

Section Frames.

Context (libm : MathLib).

(** X4. [update_controls] assigns only the desired speed, the persistent
    variables and the three commands: whether it returns or raises, the
    pose, speed, frame index, timestamp, Warm flag and waypoints are as
    before the call. *)
Theorem update_controls_keeps_inputs (c : Controller2D) :
  same_inputs c (state_after (update_controls libm c)).
Proof.
  destruct (update_desired_speed_cases c) as [(w & _ & H)|H].
  - destruct (_start_control_loop c) eqn:Hflag.
    + destruct (lookahead_waypoint (_waypoints c) (or_default (step (vars c)) 0%Z))
        as [wl|e] eqn:Hlook.
      * rewrite (update_controls_warm libm c _ wl H Hflag Hlook).
        now repeat split.
      * rewrite (update_controls_warm_raise libm c _ e H Hflag Hlook).
        now repeat split.
    + rewrite (update_controls_cold libm c _ H Hflag). now repeat split.
  - rewrite (update_controls_raise libm c c IndexError H). now repeat split.
Qed.

(** The division by 3 raises nothing but [OverflowError]. *)
Lemma int_truediv_3_failure (s : Z) (e : exn) :
  int_truediv s 3 = Failure e -> e = OverflowError /\ (2 ^ 53 <= Z.abs s)%Z.
Proof.
  intros H. split.
  - unfold int_truediv in H. cbn [Z.eqb] in H.
    destruct (SFtrunc _); congruence.
  - destruct (Z.le_gt_cases (2 ^ 53) (Z.abs s)) as [Hs|Hs]; [exact Hs|].
    rewrite (int_truediv_3 s) in H by lia. discriminate H.
Qed.

(** A non-negative counter gives a non-negative index. *)
Lemma int_truediv_3_sign (s i : Z) :
  (0 <= s)%Z -> int_truediv s 3 = Success i -> (0 <= i)%Z.
Proof.
  unfold int_truediv. cbn [Z.eqb]. intros Hs.
  destruct s as [|p|p]; [cbn; intros H; injection H as <-; lia| |lia].
  cbn [Z2SF SFdiv]. destruct (SFdiv_core_binary _ _ _ _ _ _) as [[mz ez] lz].
  unfold binary_round_aux. cbn [xorb].
  destruct (shr_fexp prec emax mz ez lz) as [mrs1 e1].
  destruct (shr_fexp prec emax _ e1 loc_Exact) as [mrs2 e2].
  destruct (shr_m mrs2) as [|m|m]; cbn [SFtrunc]; try discriminate.
  - intros H. injection H as <-. lia.
  - destruct (e2 <=? emax - prec)%Z; cbn [SFtrunc]; [|discriminate].
    intros H. injection H as <-.
    destruct (e2 <? 0)%Z; [apply Z.shiftr_nonneg|apply Z.shiftl_nonneg]; lia.
Qed.

Lemma lookahead_waypoint_failure (wps : list waypoint) (s : Z) (e : exn) :
  lookahead_waypoint wps s = Failure e ->
  e = IndexError \/ (e = OverflowError /\ (2 ^ 53 <= Z.abs s)%Z).
Proof.
  unfold lookahead_waypoint.
  destruct (int_truediv s 3) as [i|e'] eqn:Hdiv.
  - intros H. left. revert H.
    destruct (_ <? _)%Z;
      match goal with
      | |- context [py_getitem ?l ?i] =>
          destruct (py_getitem_cases l i) as [(w & -> & _)| ->]
      end; congruence.
  - intros H. injection H as <-. right. exact (int_truediv_3_failure s e' Hdiv).
Qed.

(** On a non-empty path a non-negative counter never runs off the list. *)
Lemma lookahead_waypoint_nonneg (wps : list waypoint) (s : Z) (e : exn) :
  wps <> [] -> (0 <= s)%Z -> lookahead_waypoint wps s = Failure e ->
  e = OverflowError.
Proof.
  intros Hne Hs. unfold lookahead_waypoint.
  assert (Hlen : (0 < length wps)%nat) by (destruct wps; [congruence|cbn; lia]).
  destruct (int_truediv s 3) as [i|e'] eqn:Hdiv.
  - pose proof (int_truediv_3_sign s i Hs Hdiv) as Hi.
    destruct (Z.ltb_spec i (Z.of_nat (length wps) - 1)).
    + destruct (nth_error wps (Z.to_nat i)) as [w|] eqn:E;
        [|apply nth_error_None in E; lia].
      replace i with (Z.of_nat (Z.to_nat i)) by lia.
      rewrite (py_getitem_nth wps _ w E). discriminate.
    + destruct (nth_error wps (length wps - 1)) as [w|] eqn:E;
        [|apply nth_error_None in E; lia].
      replace (Z.of_nat (length wps) - 1)%Z with (Z.of_nat (length wps - 1)) by lia.
      rewrite (py_getitem_nth wps _ w E). discriminate.
  - intros Hf. injection Hf as <-. exact (proj1 (int_truediv_3_failure s e' Hdiv)).
Qed.

(** X5. The exceptions [update_controls] raises are [IndexError] and
    [OverflowError]; the persistent variables are always created before
    they are read, so no [AttributeError] escapes.  [IndexError] is raised
    only on an empty path or with a negative step counter;
    [OverflowError] only in a Warm call whose counter has reached 2^53 in
    magnitude, by the division by 3.  The three commands are then as
    before. *)
Theorem update_controls_exceptions (c c' : Controller2D) (e : exn) :
  update_controls libm c = Raise e c' ->
  get_commands c' = get_commands c
  /\ (e = IndexError \/ e = OverflowError)
  /\ (e = IndexError ->
      _waypoints c = [] \/ (or_default (step (vars c)) 0 < 0)%Z)
  /\ (e = OverflowError ->
      _start_control_loop c = true
      /\ (2 ^ 53 <= Z.abs (or_default (step (vars c)) 0))%Z).
Proof.
  intros Hr.
  destruct (update_desired_speed_cases c) as [(w & Hin & H)|H].
  - assert (Hne : _waypoints c <> []) by (intros E; now rewrite E in Hin).
    destruct (_start_control_loop c) eqn:Hflag.
    + destruct (lookahead_waypoint (_waypoints c) (or_default (step (vars c)) 0%Z))
        as [wl|e'] eqn:Hlook.
      * now rewrite (update_controls_warm libm c _ wl H Hflag Hlook) in Hr.
      * rewrite (update_controls_warm_raise libm c _ e' H Hflag Hlook) in Hr.
        injection Hr as <- <-. split; [reflexivity|].
        destruct (lookahead_waypoint_failure _ _ _ Hlook) as [E|[E Hbig]].
        -- split; [left; exact E|]. split; [|intros E'; congruence].
           intros _. right.
           destruct (Z.lt_ge_cases (or_default (step (vars c)) 0%Z) 0%Z) as [Hs|Hs];
             [exact Hs|].
           pose proof (lookahead_waypoint_nonneg _ _ _ Hne Hs Hlook). congruence.
        -- split; [right; exact E|]. split; [intros E'; congruence|].
           intros _. split; [reflexivity|exact Hbig].
    + now rewrite (update_controls_cold libm c _ H Hflag) in Hr.
  - rewrite (update_controls_raise libm c c IndexError H) in Hr.
    injection Hr as <- <-. split; [reflexivity|]. split; [left; reflexivity|].
    split; [|discriminate]. intros _. left.
    destruct (_waypoints c) as [|w0 l] eqn:E; [reflexivity|].
    assert (Hne : _waypoints c <> []) by congruence.
    destruct (update_desired_speed_nearest c Hne) as (m & w & _ & Hok & _).
    congruence.
Qed.

Lemma update_controls_keeps_flag (c : Controller2D) :
  _start_control_loop (state_after (update_controls libm c)) = _start_control_loop c.
Proof.
  destruct (update_desired_speed_cases c) as [(w & _ & H)|H].
  - destruct (_start_control_loop c) eqn:Hflag.
    + destruct (lookahead_waypoint (_waypoints c) (or_default (step (vars c)) 0%Z))
        as [wl|e] eqn:Hlook.
      * now rewrite (update_controls_warm libm c _ wl H Hflag Hlook).
      * now rewrite (update_controls_warm_raise libm c _ e H Hflag Hlook).
    + now rewrite (update_controls_cold libm c _ H Hflag).
  - now rewrite (update_controls_raise libm c c IndexError H).
Qed.

(** X6. The Cold-to-Warm transition is one-way: once an [update_values]
    with a non-zero frame index has been seen, no later call (an
    [update_values] with frame 0 included) makes the controller Cold. *)
Theorem warm_is_sticky (c : Controller2D) (ms : list method_call) :
  _start_control_loop c = true -> _start_control_loop (run libm c ms) = true.
Proof.
  revert c. induction ms as [|m ms IH]; intros c Hc; [exact Hc|].
  cbn [run]. apply IH. destruct m; cbn [invoke state_after]; try exact Hc.
  - cbn. rewrite Hc. now destruct (frame =? 0)%Z.
  - now rewrite update_controls_keeps_flag.
Qed.

(** The first [update_values] with a non-zero frame index makes it Warm. *)
Lemma update_values_warm (c : Controller2D) (x y yaw speed t : float) (frame : Z) :
  frame <> 0%Z -> _start_control_loop (update_values c x y yaw speed t frame) = true.
Proof. intros H. cbn. now destruct (Z.eqb_spec frame 0). Qed.

(** X7. A NaN speed reading drives the throttle to full: in a Warm call on a
    non-empty path, with a step counter from 0 to 2^53 - 1, the fraction is
    NaN, passes both comparisons of the longitudinal block, and
    [set_throttle] stores 1. *)
Theorem nan_speed_full_throttle (c : Controller2D) :
  _start_control_loop c = true ->
  _waypoints c <> [] ->
  (0 <= or_default (step (vars c)) 0 < 2 ^ 53)%Z ->
  is_nan (_current_speed c) = true ->
  exists c', update_controls libm c = Ok c' /\ _set_throttle c' = 1.
Proof.
  intros Hflag Hne Hs Hnan.
  destruct (update_desired_speed_nearest c Hne) as (m & w & _ & H & _).
  destruct (lookahead_waypoint_index _ _ Hne Hs) as (wl & Hlook & _).
  rewrite (update_controls_warm libm c _ wl H Hflag Hlook).
  eexists. split; [reflexivity|].
  apply throttle_of_nan, div_nan_l, add_nan_l, add_nan_l, mul_nan_r, sub_nan_r, Hnan.
Qed.

Lemma opp_nan (x : float) : is_nan x = true -> is_nan (- x) = true.
Proof.
  intros H. apply Prim2SF_nan. now rewrite opp_spec, (is_nan_Prim2SF x H).
Qed.

(** X8. A NaN heading, once the startup suppression is over (a step
    counter from 100 to 2^53 - 1), drives the steering command to 1: the NaN
    passes the dead band on the heading, the 0.3 rad limit and the dead band
    on the angle, and [set_steer] stores it as 1.  (The C library's sine and
    arc tangent return NaN on NaN.) *)
Theorem nan_yaw_full_steer (c : Controller2D) :
  (forall x, is_nan x = true -> is_nan (np_sin libm x) = true) ->
  (forall x, is_nan x = true -> is_nan (np_arctan libm x) = true) ->
  _start_control_loop c = true ->
  _waypoints c <> [] ->
  (100 <= or_default (step (vars c)) 0 < 2 ^ 53)%Z ->
  is_nan (_current_yaw c) = true ->
  exists c', update_controls libm c = Ok c' /\ _set_steer c' = 1.
Proof.
  intros Hsin Hatan Hflag Hne Hs Hnan.
  destruct (update_desired_speed_nearest c Hne) as (m & w & _ & H & _).
  assert (Hs0 : exact_step (or_default (step (vars c)) 0%Z))
    by (unfold exact_step; lia).
  destruct (lookahead_waypoint_index _ _ Hne Hs0) as (wl & Hlook & _).
  rewrite (update_controls_warm libm c _ wl H Hflag Hlook).
  eexists. split; [reflexivity|].
  cbn [_set_steer set_brake assign_brake assign_vars].
  apply set_steer_of_nan_angle.
  unfold lateral_steer_angle. cbv zeta. cbn [vars assign_desired_speed].
  destruct (Z.ltb_spec (or_default (step (vars c)) 0%Z) 100%Z) as [Hlt|_]; [lia|].
  assert (Hyaw : is_nan (- _current_yaw c - np_pi / 2) = true)
    by (apply sub_nan_l, opp_nan, Hnan).
  unfold np_abs. rewrite (ltb_nan_l (abs _) 0.05) by (now rewrite abs_nan).
  match goal with
  | |- is_nan (steer_limit ?a) = true =>
      assert (Ha : is_nan a = true);
      [|now rewrite (steer_limit_of_nan a Ha)]
  end.
  apply Hatan, div_nan_l, mul_nan_r, Hsin, sub_nan_r, Hyaw.
Qed.

End Frames.

(** ** A NaN position *)

Lemma fma_nan_l (x y z : float) : is_nan x = true -> is_nan (fma x y z) = true.
Proof.
  intros H. unfold fma, SFfma. rewrite (is_nan_Prim2SF x H). cbn [SFmul_exact].
  now destruct (Prim2SF z).
Qed.

Lemma fma_nan_z (x y z : float) : is_nan z = true -> is_nan (fma x y z) = true.
Proof.
  intros H. unfold fma, SFfma. rewrite (is_nan_Prim2SF z H).
  now destruct (SFmul_exact (Prim2SF x) (Prim2SF y)).
Qed.

Lemma waypoint_dist_nan (x y : float) (w : waypoint) :
  is_nan x = true \/ is_nan y = true -> is_nan (waypoint_dist x y w) = true.
Proof.
  intros H. unfold waypoint_dist, np_linalg_norm. apply sqrt_nan.
  destruct H as [H|H].
  - apply fma_nan_z, mul_nan_l, sub_nan_r, H.
  - apply fma_nan_l, sub_nan_r, H.
Qed.

Lemma nearest_scan_nan (x y : float) (rest : list waypoint) (i min_idx : Z)
  (min_dist : float) :
  is_nan x = true \/ is_nan y = true ->
  nearest_scan x y rest i min_idx min_dist = (min_idx, min_dist).
Proof.
  intros H. revert i. induction rest as [|w rest IH]; intros i; [reflexivity|].
  cbn [nearest_scan]. rewrite (ltb_nan_l _ min_dist (waypoint_dist_nan x y w H)).
  apply IH.
Qed.

(** X9. With a NaN position no distance compares below the running
    minimum, [min_idx] stays 0, and the desired speed is the target speed of
    the first waypoint, wherever the vehicle is. *)
Theorem nan_position_first_waypoint (c : Controller2D) (w0 : waypoint)
  (rest : list waypoint) :
  _waypoints c = w0 :: rest ->
  is_nan (_current_x c) = true \/ is_nan (_current_y c) = true ->
  update_desired_speed c = Ok (assign_desired_speed c (wp_v w0)).
Proof.
  intros Hw Hnan. unfold update_desired_speed.
  rewrite (nearest_scan_nan _ _ _ _ _ _ Hnan), Hw.
  destruct (0 <? Z.of_nat (length (w0 :: rest)) - 1)%Z eqn:E.
  - reflexivity.
  - destruct rest as [|w1 rest]; [reflexivity|].
    cbn [length] in E. apply Z.ltb_ge in E. lia.
Qed.

(** ** The lookahead waypoint at both ends of the path *)

Lemma nth_error_last {A : Type} (l : list A) (a d : A) :
  nth_error l (length l - 1) = Some a -> last l d = a.
Proof.
  intros H. destruct l as [|x l] using rev_ind; [discriminate H|].
  rewrite last_last. rewrite length_app in H. cbn [length] in H.
  rewrite nth_error_app2 in H by lia.
  replace (length l + 1 - 1 - length l)%nat with 0%nat in H by lia.
  cbn in H. congruence.
Qed.

(** X10. The lookahead waypoint starts at the first waypoint (steps 0 to 2)
    and, from step 3 * (len - 1) on, is the last waypoint, for every step
    counter below 2^53. *)
Theorem lookahead_ends (wps : list waypoint) (s : Z) (d : waypoint) :
  wps <> [] ->
  ((0 <= s < 3)%Z -> lookahead_waypoint wps s = Success (hd d wps))
  /\ ((3 * (Z.of_nat (length wps) - 1) <= s < 2 ^ 53)%Z ->
      lookahead_waypoint wps s = Success (last wps d)).
Proof.
  intros Hne.
  assert (0 < length wps)%nat by (destruct wps; [congruence|cbn; lia]).
  split; intros Hs.
  - assert (Hex : exact_step s) by (unfold exact_step; lia).
    destruct (lookahead_waypoint_index wps s Hne Hex) as (w & -> & Hw).
    rewrite (Z.div_small s 3) in Hw by lia.
    replace (Z.to_nat (Z.min 0 (Z.of_nat (length wps) - 1))) with 0%nat in Hw by lia.
    destruct wps; [congruence|]. cbn in Hw |- *. congruence.
  - assert (Hex : exact_step s) by (unfold exact_step; lia).
    destruct (lookahead_waypoint_index wps s Hne Hex) as (w & -> & Hw).
    assert (Z.of_nat (length wps) - 1 <= s / 3)%Z
      by (apply Z.div_le_lower_bound; lia).
    replace (Z.to_nat (Z.min (s / 3) (Z.of_nat (length wps) - 1)))
      with (length wps - 1)%nat in Hw by lia.
    now rewrite (nth_error_last wps w d Hw).
Qed.

(** ** The steering limit and dead band *)

(** X11. The angle handed to [set_steer] is either exactly 0 or at least
    0.05 rad in magnitude (and at most 0.3); limiting an already limited
    angle changes nothing. *)
Theorem steer_limit_dead_band (s : float) :
  steer_limit (steer_limit s) = steer_limit s
  /\ (is_nan s = false ->
      steer_limit s = 0
      \/ ((0.05 <=? abs (steer_limit s)) = true
          /\ in_range (-0.3) 0.3 (steer_limit s) = true)).
Proof.
  split.
  - unfold steer_limit, np_abs.
    destruct (0.3 <? s) eqn:Hhi; [reflexivity|].
    destruct (s <? -0.3) eqn:Hlo; [reflexivity|].
    destruct (abs s <? 0.05) eqn:Hband; [reflexivity|].
    now rewrite Hhi, Hlo, Hband.
  - intros Hs. pose proof (steer_limit_range s Hs) as Hr. revert Hr.
    unfold steer_limit, np_abs.
    destruct (0.3 <? s) eqn:Hhi; [now right|].
    destruct (s <? -0.3) eqn:Hlo; [now right|].
    destruct (abs s <? 0.05) eqn:Hband; [now left|].
    intros Hr. right. split; [|exact Hr].
    apply not_ltb_leb; [now rewrite abs_nan|reflexivity|exact Hband].
Qed.

Section Independence.

Context (libm : MathLib).

(** X12. The rear-axle point and the distance to the lookahead point are
    computed and never used: whatever [np.cos] returns, every call sequence
    leaves the controller in the same state. *)
Theorem rear_axle_feeds_nothing (cos' : float -> float) (c : Controller2D)
  (ms : list method_call) :
  run (with_cos libm cos') c ms = run libm c ms.
Proof.
  revert c. induction ms as [|m ms IH]; intros c; [reflexivity|].
  cbn [run]. rewrite IH. now destruct m.
Qed.

(** [update_desired_speed] reads the position and the waypoints only. *)
Lemma update_desired_speed_reads (c c' : Controller2D) :
  _waypoints c' = _waypoints c ->
  _current_x c' = _current_x c ->
  _current_y c' = _current_y c ->
  match update_desired_speed c with
  | Ok c1 => update_desired_speed c' = Ok (assign_desired_speed c' (_desired_speed c1))
             /\ c1 = assign_desired_speed c (_desired_speed c1)
  | Raise e c1 => update_desired_speed c' = Raise e c' /\ c1 = c
  end.
Proof.
  intros Hw Hx Hy. unfold update_desired_speed. rewrite Hw, Hx, Hy.
  destruct (nearest_scan _ _ _ _ _ _) as [mi md].
  destruct (if (mi <? _)%Z then _ else _); cbn [try_in]; now split.
Qed.

(** X13. Throttle, brake, desired speed and the persistent variables do not
    depend on the heading, nor on the C library: the longitudinal side of
    the controller is decoupled from the lateral one. *)
Theorem longitudinal_ignores_heading (libm' : MathLib) (c : Controller2D)
  (yaw : float) :
  let c1 := state_after (update_controls libm c) in
  let c2 := state_after (update_controls libm' (with_yaw c yaw)) in
  _set_throttle c2 = _set_throttle c1
  /\ _set_brake c2 = _set_brake c1
  /\ _desired_speed c2 = _desired_speed c1
  /\ vars c2 = vars c1.
Proof.
  pose proof (update_desired_speed_reads c (with_yaw c yaw) eq_refl eq_refl eq_refl)
    as Hds.
  destruct (update_desired_speed c) as [c1|e c1] eqn:H.
  - destruct Hds as [H' E]. rewrite E in H.
    destruct (_start_control_loop c) eqn:Hflag.
    + destruct (lookahead_waypoint (_waypoints c) (or_default (step (vars c)) 0%Z))
        as [wl|e] eqn:Hlook.
      * rewrite (update_controls_warm libm c _ wl H Hflag Hlook).
        now rewrite (update_controls_warm libm' _ _ wl H' Hflag Hlook).
      * rewrite (update_controls_warm_raise libm c _ e H Hflag Hlook).
        now rewrite (update_controls_warm_raise libm' _ _ e H' Hflag Hlook).
    + rewrite (update_controls_cold libm c _ H Hflag).
      now rewrite (update_controls_cold libm' _ _ H' Hflag).
  - destruct Hds as [H' ->].
    rewrite (update_controls_raise libm c _ _ H).
    now rewrite (update_controls_raise libm' _ _ _ H').
Qed.

(** X14. The steering command does not depend on the speed reading, the
    previous speed or the accumulated speed error. *)
Theorem steer_ignores_speed (c : Controller2D) (speed : float)
  (previous accumulated : option float) :
  _set_steer (state_after (update_controls libm
                             (with_speed_history c speed previous accumulated)))
  = _set_steer (state_after (update_controls libm c)).
Proof.
  set (c' := with_speed_history c speed previous accumulated).
  pose proof (update_desired_speed_reads c c' eq_refl eq_refl eq_refl) as Hds.
  destruct (update_desired_speed c) as [c1|e c1] eqn:H.
  - destruct Hds as [H' E]. rewrite E in H.
    destruct (_start_control_loop c) eqn:Hflag.
    + destruct (lookahead_waypoint (_waypoints c) (or_default (step (vars c)) 0%Z))
        as [wl|e] eqn:Hlook.
      * rewrite (update_controls_warm libm c _ wl H Hflag Hlook).
        now rewrite (update_controls_warm libm c' _ wl H' Hflag Hlook).
      * rewrite (update_controls_warm_raise libm c _ e H Hflag Hlook).
        now rewrite (update_controls_warm_raise libm c' _ e H' Hflag Hlook).
    + rewrite (update_controls_cold libm c _ H Hflag).
      now rewrite (update_controls_cold libm c' _ H' Hflag).
  - destruct Hds as [H' ->].
    rewrite (update_controls_raise libm c _ _ H).
    now rewrite (update_controls_raise libm c' _ _ H').
Qed.

End Independence.

(** ** Distances *)

Lemma Prim2SF_finite (x : float) :
  is_finite x = true ->
  (exists s, Prim2SF x = S754_zero s) \/ (exists s m e, Prim2SF x = S754_finite s m e).
Proof.
  unfold is_finite. intros H. apply negb_true_iff, orb_false_iff in H as [Hn Hi].
  unfold Prim2SF. rewrite Hn, Hi.
  destruct (is_zero x); [left; eauto|].
  destruct (Z.frexp x) as [r e].
  destruct (shr_fexp _ _ _ _ _) as [s e'].
  destruct (shr_m s); [left|right|left]; eauto.
Qed.

(** A finite float minus itself is +0. *)
Lemma sub_diag (x : float) : is_finite x = true -> x - x = 0.
Proof.
  intros H. apply Prim2SF_inj. rewrite sub_spec.
  change (Prim2SF 0) with (S754_zero false).
  destruct (Prim2SF_finite x H) as [(s & ->)|(s & m & e & ->)].
  - now destruct s.
  - unfold SF64sub, SFsub. now rewrite Z.sub_diag.
Qed.

(** [sqrt] never returns a negative number. *)
Lemma sqrt_not_negative (x : float) : (sqrt x <? 0) = false.
Proof.
  rewrite ltb_spec, sqrt_spec. change (Prim2SF 0) with (S754_zero false).
  unfold SFltb, SF64sqrt, SFsqrt.
  destruct (Prim2SF x) as [[]|[]| |[] m e]; try reflexivity.
  destruct (SFsqrt_core_binary _ _ _ _) as [[mz ez] lz].
  unfold binary_round_aux.
  destruct (shr_fexp _ _ _ _ _) as [mrs e'].
  destruct (shr_fexp _ _ _ _ _) as [mrs' e''].
  destruct (shr_m mrs'); try reflexivity.
  now destruct (Z.leb _ _).
Qed.

Lemma waypoint_dist_not_negative (x y : float) (w : waypoint) :
  (waypoint_dist x y w <? 0) = false.
Proof. apply sqrt_not_negative. Qed.

(** The distance to a waypoint the vehicle stands on is 0. *)
Lemma waypoint_dist_on_waypoint (x y : float) (w : waypoint) :
  wp_x w = x -> wp_y w = y -> is_finite x = true -> is_finite y = true ->
  waypoint_dist x y w = 0.
Proof.
  intros Ex Ey Hx Hy. unfold waypoint_dist, np_linalg_norm.
  now rewrite Ex, Ey, (sub_diag _ Hx), (sub_diag _ Hy).
Qed.

Lemma leb_antisym_eqb (x y : float) :
  (x <=? y) = true -> (y <=? x) = true -> (x =? y) = true.
Proof.
  rewrite !leb_spec, FloatAxioms.eqb_spec. unfold SFleb, SFeqb.
  rewrite (SFcompare_antisym (Prim2SF x) (Prim2SF y)).
  now destruct (SFcompare (Prim2SF x) (Prim2SF y)) as [[]|].
Qed.

(** The scan's choice, with what is known of its distance: it is a
    number, or the scan never left index 0 because no distance was below
    infinity. *)
Lemma nearest_scan_choice (x y : float) (wps : list waypoint) :
  wps <> [] ->
  exists m w,
    fst (nearest_scan x y wps 0%Z 0%Z float_inf) = Z.of_nat m
    /\ nth_error wps m = Some w
    /\ (forall j wj, nth_error wps j = Some wj ->
                    (waypoint_dist x y wj <? waypoint_dist x y w) = false)
    /\ (forall j wj, (j < m)%nat -> nth_error wps j = Some wj ->
                    (waypoint_dist x y wj <=? waypoint_dist x y w) = false)
    /\ (is_nan (waypoint_dist x y w) = false
        \/ m = 0%nat
           /\ forall j wj, nth_error wps j = Some wj ->
                           (waypoint_dist x y wj <? float_inf) = false).
Proof.
  intros Hne.
  destruct (nearest_scan_nearest x y wps Hne) as (m & w & Hm & Hw & Hmin & Hfirst).
  exists m, w. repeat split; try assumption.
  pose proof (nearest_scan_inv x y wps [] 0%Z float_inf (scan_inv_init x y)) as H.
  cbn [app length] in H. change (Z.of_nat 0) with 0%Z in H.
  destruct (nearest_scan x y wps 0 0 float_inf) as [mi md]. cbn [fst snd] in *.
  subst mi. destruct H as (Hnan & Hidx & Hmin' & _).
  destruct Hidx as [[E ->]|(w' & _ & Hw' & ->)].
  - right. split; [lia|exact Hmin'].
  - left. rewrite Nat2Z.id in Hw'. congruence.
Qed.

(** X15. A vehicle standing exactly on waypoint [k] is given the target
    speed of a waypoint at distance zero, and of the first such one: its
    index is at most [k], and no earlier waypoint is at distance zero. *)
Theorem on_waypoint_speed (c : Controller2D) (k : nat) (wk : waypoint) :
  nth_error (_waypoints c) k = Some wk ->
  wp_x wk = _current_x c ->
  wp_y wk = _current_y c ->
  is_finite (_current_x c) = true ->
  is_finite (_current_y c) = true ->
  exists m w,
    (m <= k)%nat
    /\ nth_error (_waypoints c) m = Some w
    /\ update_desired_speed c = Ok (assign_desired_speed c (wp_v w))
    /\ (waypoint_dist (_current_x c) (_current_y c) w =? 0) = true
    /\ (forall j wj, (j < m)%nat -> nth_error (_waypoints c) j = Some wj ->
          (waypoint_dist (_current_x c) (_current_y c) wj =? 0) = false).
Proof.
  intros Hk Hx Hy Hfx Hfy.
  pose proof (waypoint_dist_on_waypoint _ _ wk Hx Hy Hfx Hfy) as Hdk.
  assert (Hne : _waypoints c <> []) by (intros E; rewrite E in Hk; now destruct k).
  set (x := _current_x c) in *. set (y := _current_y c) in *.
  destruct (nearest_scan_choice x y _ Hne)
    as (m & w & Hm & Hw & Hmin & Hfirst & Hnum).
  assert (Hn : is_nan (waypoint_dist x y w) = false).
  { destruct Hnum as [Hn|[_ Hinf]]; [exact Hn|].
    pose proof (Hinf k wk Hk) as F. rewrite Hdk in F. discriminate F. }
  assert (Hle : (waypoint_dist x y w <=? 0) = true).
  { apply not_ltb_leb; [reflexivity|exact Hn|].
    rewrite <- Hdk. exact (Hmin k wk Hk). }
  assert (Hge : (0 <=? waypoint_dist x y w) = true).
  { apply not_ltb_leb; [exact Hn|reflexivity|apply waypoint_dist_not_negative]. }
  exists m, w. repeat split.
  - destruct (Nat.lt_ge_cases k m) as [Hlt|Hge']; [|exact Hge'].
    pose proof (Hfirst k wk Hlt Hk) as F. rewrite Hdk, Hge in F. discriminate F.
  - exact Hw.
  - unfold update_desired_speed. fold x y.
    destruct (nearest_scan x y (_waypoints c) 0 0 float_inf) as [mi md].
    cbn [fst] in Hm. subst mi.
    assert (m < length (_waypoints c))%nat by (apply nth_error_Some; congruence).
    destruct (Z.ltb_spec (Z.of_nat m) (Z.of_nat (length (_waypoints c)) - 1)).
    + now rewrite (py_getitem_nth _ _ _ Hw).
    + replace m with (length (_waypoints c) - 1)%nat in Hw by lia.
      now rewrite (py_getitem_last _ _ Hw).
  - exact (leb_antisym_eqb _ _ Hle Hge).
  - intros j wj Hj Hwj.
    destruct (waypoint_dist x y wj =? 0) eqn:E; [|reflexivity].
    pose proof (Hfirst j wj Hj Hwj) as F.
    assert (Hj0 : (waypoint_dist x y wj <=? 0) = true).
    { revert E. rewrite FloatAxioms.eqb_spec, leb_spec. unfold SFeqb, SFleb.
      now destruct (SFcompare _ _) as [[]|]. }
    now rewrite (leb_trans _ _ _ Hj0 Hge) in F.
Qed.

Section Whole_runs.

Context (libm : MathLib).

Lemma returns_normally_from (ms : list method_call) (c : Controller2D) (n : nat) :
  _waypoints c <> [] ->
  or_default (step (vars c)) 0%Z = Z.of_nat n ->
  nonempty_paths ms = true ->
  (Z.of_nat (n + count_update_controls ms) <= 2 ^ 53)%Z ->
  returns_normally libm c ms = true.
Proof.
  revert c n. induction ms as [|m ms IH]; intros c n Hne Hs Hms Hb; [reflexivity|].
  unfold nonempty_paths in Hms. cbn [forallb] in Hms.
  apply andb_prop in Hms as [Hm Hms]. cbn [returns_normally].
  destruct m; cbn [invoke]; try (apply (IH _ n); assumption).
  - apply (IH _ n); [|exact Hs|exact Hms|exact Hb].
    destruct new_waypoints; [discriminate Hm|cbn; congruence].
  - unfold count_update_controls in Hb. cbn [filter length] in Hb.
    fold (count_update_controls ms) in Hb.
    assert (Hex : exact_step (or_default (step (vars c)) 0%Z))
      by (unfold exact_step; lia).
    destruct (update_controls_advances libm c Hne (fun _ => Hex))
      as (c' & -> & _ & Hv & Hw & _).
    apply (IH _ (S n)); [now rewrite Hw| |exact Hms|].
    + rewrite Hv. cbn. lia.
    + replace (S n + count_update_controls ms)%nat
        with (n + S (count_update_controls ms))%nat by lia. exact Hb.
Qed.

(** X16. As long as the path is never empty (at construction and in every
    [update_waypoints]), no call of a sequence with at most 2^53
    [update_controls] calls raises. *)
Theorem never_raises_on_nonempty_paths (waypoints : list waypoint)
  (ms : list method_call) :
  waypoints <> [] ->
  nonempty_paths ms = true ->
  (Z.of_nat (count_update_controls ms) <= 2 ^ 53)%Z ->
  returns_normally libm (init waypoints) ms = true.
Proof.
  intros Hne Hms Hb.
  apply (returns_normally_from ms (init waypoints) 0);
    [exact Hne|reflexivity|exact Hms|exact Hb].
Qed.

Lemma lateral_steer_angle_startup (x y yaw v_d : float) (wl : waypoint) (s : Z) :
  (s < 100)%Z -> lateral_steer_angle libm x y yaw v_d wl s = 0.
Proof.
  intros Hs. unfold lateral_steer_angle. cbv zeta.
  apply Z.ltb_lt in Hs. now rewrite Hs.
Qed.

Lemma update_controls_startup (c : Controller2D) (n : Z) :
  (0 <= or_default (step (vars c)) 0 <= n)%Z ->
  (n < 100)%Z ->
  _set_steer c = 0 ->
  let c' := state_after (update_controls libm c) in
  (0 <= or_default (step (vars c')) 0 <= n + 1)%Z /\ _set_steer c' = 0.
Proof.
  intros Hs Hn Hsteer.
  destruct (update_desired_speed_cases c) as [(w & _ & H)|H].
  - destruct (_start_control_loop c) eqn:Hflag.
    + destruct (lookahead_waypoint (_waypoints c) (or_default (step (vars c)) 0%Z))
        as [wl|e] eqn:Hlook.
      * rewrite (update_controls_warm libm c _ wl H Hflag Hlook).
        cbn [state_after]. split; [cbn; lia|].
        cbn [_set_steer set_brake set_steer assign_vars assign_steer assign_brake
             vars assign_desired_speed].
        now rewrite lateral_steer_angle_startup by lia.
      * rewrite (update_controls_warm_raise libm c _ e H Hflag Hlook).
        cbn [state_after]. split; [|exact Hsteer].
        cbn. destruct (step (vars c)); cbn in *; lia.
    + rewrite (update_controls_cold libm c _ H Hflag).
      cbn [state_after]. split; [cbn; lia|exact Hsteer].
  - rewrite (update_controls_raise libm c c IndexError H).
    cbn [state_after]. split; [lia|exact Hsteer].
Qed.

Lemma run_startup (ms : list method_call) (c : Controller2D) (n : nat) :
  forallb harness_call ms = true ->
  (0 <= or_default (step (vars c)) 0 <= Z.of_nat n)%Z ->
  (n + count_update_controls ms <= 100)%nat ->
  _set_steer c = 0 ->
  _set_steer (run libm c ms) = 0.
Proof.
  revert c n. induction ms as [|m ms IH]; intros c n Hms Hs Hn Hsteer;
    [exact Hsteer|].
  cbn [forallb] in Hms. apply andb_prop in Hms as [Hm Hms]. cbn [run].
  destruct m; try discriminate Hm; cbn [invoke state_after];
    try (apply (IH _ n); assumption).
  unfold count_update_controls in Hn. cbn [filter length] in Hn.
  fold (count_update_controls ms) in Hn.
  destruct (update_controls_startup c (Z.of_nat n) Hs ltac:(lia) Hsteer) as [Hs' Hz].
  apply (IH _ (S n)); [exact Hms|lia|lia|exact Hz].
Qed.

(** X17. The startup suppression counts [update_controls] calls from
    construction, Cold ones included: through the first 100 calls of the
    harness loop the steering command stays exactly 0. *)
Theorem no_steering_in_first_100_ticks (waypoints : list waypoint)
  (ms : list method_call) :
  forallb harness_call ms = true ->
  (count_update_controls ms <= 100)%nat ->
  _set_steer (run libm (init waypoints) ms) = 0.
Proof.
  intros Hms Hn. apply (run_startup ms (init waypoints) 0); try assumption.
  - cbn. lia.
  - reflexivity.
Qed.

End Whole_runs.

(** ** The further properties on the samples *)

Lemma poly_sin_nan (x : float) : is_nan x = true -> is_nan (poly_sin x) = true.
Proof. intros H. unfold poly_sin. cbv zeta. now apply mul_nan_l. Qed.

Lemma poly_arctan_nan (x : float) : is_nan x = true -> is_nan (poly_arctan x) = true.
Proof.
  intros H. unfold poly_arctan.
  rewrite (leb_nan_l (abs x) 1) by (now rewrite abs_nan).
  now apply sub_nan_r, div_nan_l.
Qed.

Lemma set_throttle_brake_saturate_witness :
  _set_throttle (set_throttle (init []) 0.5) = 0.5
  /\ _set_throttle (set_throttle (init []) 7) = 1
  /\ _set_brake (set_brake (init []) (-3)) = 0.
Proof.
  split; [|split].
  - exact (proj1 (proj1 (set_throttle_brake_saturate (init []) 0.5) eq_refl)).
  - exact (proj1 (proj1 (proj2 (set_throttle_brake_saturate (init []) 7)) eq_refl)).
  - exact (proj2 (proj1 (proj2 (proj2 (set_throttle_brake_saturate (init []) (-3))))
                    eq_refl)).
Defined.

Lemma set_steer_saturates_witness :
  _set_steer (set_steer (init []) 0.1) = _conv_rad_to_steer * 0.1
  /\ _set_steer (set_steer (init []) 2) = 1
  /\ _set_steer (set_steer (init []) (-2)) = -1.
Proof.
  split; [|split].
  - exact (proj1 (set_steer_saturates (init []) 0.1) eq_refl).
  - exact (proj1 (proj2 (set_steer_saturates (init []) 2)) eq_refl).
  - exact (proj2 (proj2 (set_steer_saturates (init []) (-2))) eq_refl).
Defined.

Lemma setters_store_one_for_nan_witness :
  _set_throttle (set_throttle (init []) nan) = 1
  /\ _set_steer (set_steer (init []) nan) = 1
  /\ _set_brake (set_brake (init []) nan) = 1.
Proof. exact (setters_store_one_for_nan (init []) nan eq_refl). Defined.

Lemma update_controls_exceptions_witness :
  exists c',
    update_controls poly_libm (with_step sample_warm (10 ^ 400)) = Raise OverflowError c'
    /\ get_commands c' = (0, 0, 0)
    /\ _start_control_loop (with_step sample_warm (10 ^ 400)) = true.
Proof.
  eexists. split; [vm_compute; reflexivity|].
  destruct (update_controls_exceptions poly_libm
              (with_step sample_warm (10 ^ 400)) _ OverflowError
              ltac:(vm_compute; reflexivity))
    as (Hcmd & _ & _ & Hov).
  split; [exact Hcmd|exact (proj1 (Hov eq_refl))].
Defined.

Lemma warm_is_sticky_witness :
  _start_control_loop
    (run poly_libm sample_warm [Update_values 0 0 0 0 0 0%Z; Update_controls]) = true.
Proof. exact (warm_is_sticky poly_libm sample_warm _ eq_refl). Defined.

Lemma nan_speed_full_throttle_witness :
  exists c',
    update_controls poly_libm (update_values (init sample_path) 9 0 0 nan 0 1%Z) = Ok c'
    /\ _set_throttle c' = 1.
Proof.
  apply nan_speed_full_throttle; by_evaluation.
Defined.

Lemma nan_yaw_full_steer_witness :
  exists c',
    update_controls poly_libm (with_yaw sample_cruising nan) = Ok c'
    /\ _set_steer c' = 1.
Proof.
  apply nan_yaw_full_steer;
    [exact poly_sin_nan|exact poly_arctan_nan|by_evaluation..].
Defined.

Lemma nan_position_first_waypoint_witness :
  update_desired_speed (update_values (init sample_path) nan 0 0 0 0 0%Z)
  = Ok (assign_desired_speed (update_values (init sample_path) nan 0 0 0 0 0%Z) 5).
Proof.
  exact (nan_position_first_waypoint
           (update_values (init sample_path) nan 0 0 0 0 0%Z)
           (Waypoint 0 0 5) _ eq_refl (or_introl eq_refl)).
Defined.

Lemma lookahead_ends_witness :
  lookahead_waypoint sample_path 2 = Success (Waypoint 0 0 5)
  /\ lookahead_waypoint sample_path 6 = Success (Waypoint 20 0 3).
Proof.
  split.
  - exact (proj1 (lookahead_ends sample_path 2 (Waypoint 0 0 0) ltac:(discriminate))
             ltac:(lia)).
  - exact (proj2 (lookahead_ends sample_path 6 (Waypoint 0 0 0) ltac:(discriminate))
             ltac:(cbn; lia)).
Defined.

Lemma steer_limit_dead_band_witness :
  steer_limit 0.2 = 0
  \/ ((0.05 <=? abs (steer_limit 0.2)) = true
      /\ in_range (-0.3) 0.3 (steer_limit 0.2) = true).
Proof. exact (proj2 (steer_limit_dead_band 0.2) eq_refl). Defined.

Lemma on_waypoint_speed_witness :
  exists m w,
    (m <= 1)%nat
    /\ nth_error sample_path m = Some w
    /\ update_desired_speed (update_values (init sample_path) 10 0 0 0 0 0%Z)
       = Ok (assign_desired_speed (update_values (init sample_path) 10 0 0 0 0 0%Z)
               (wp_v w)).
Proof.
  destruct (on_waypoint_speed (update_values (init sample_path) 10 0 0 0 0 0%Z)
              1 (Waypoint 10 0 8) eq_refl eq_refl eq_refl eq_refl eq_refl)
    as (m & w & Hm & Hw & H & _).
  exists m, w. split; [exact Hm|]. split; [exact Hw|exact H].
Defined.

Lemma never_raises_on_nonempty_paths_witness :
  returns_normally poly_libm (init sample_path) (sample_drive 0.05 0.1) = true.
Proof.
  exact (never_raises_on_nonempty_paths poly_libm sample_path (sample_drive 0.05 0.1)
           ltac:(discriminate) eq_refl ltac:(by_evaluation)).
Defined.

Lemma no_steering_in_first_100_ticks_witness :
  _set_steer (run poly_libm (init sample_path) (sample_drive 0.05 0.1)) = 0.
Proof.
  apply no_steering_in_first_100_ticks; [reflexivity|cbn; lia].
Defined.
